(** * Rizz-GPT: the meme-generation endpoint

    A shallow embedding of the request handler of the meme API route
    (the [handler] function, together with the string and regular-expression
    built-ins of JavaScript that it relies on), and the properties of its
    template selection, response parsing, validation and persistence steps.

    Conventions.
    - A JavaScript string is a sequence of UTF-16 code units: [list N].
    - A value that may be [undefined] or [null] is a [jsval].
    - [Math.random()] is idealised as an exact rational; the handler draws its
      successive values from a list supplied by the environment.
    - The external collaborators (chat completion, image rendering, document
      store, uuid, clock) are answered by an environment record; every call
      the handler makes to them is recorded in a trace.  Calls are assumed to
      resolve: a rejected promise is outside the model. *)

From Stdlib Require Import ZArith NArith QArith Qround List String Ascii Lia.
From Stdlib Require Import DecimalString DecimalNat.
From stdpp Require Import base option list gmap.

(** ** JavaScript strings and values *)

Module Js.

Definition code_unit : Type := N.
Definition jsstring : Type := list code_unit.

(** A string literal of the source, as code units (ASCII literals only). *)
Definition lit (s : string) : jsstring :=
  map N_of_ascii (list_ascii_of_string s).
Arguments lit s%_string.

(** The line feed, written [\n] in the source. *)
Definition LF : code_unit := 10%N.
(** The double quote, written inside template literals of the source. *)
Definition DQUOTE : code_unit := 34%N.
(** The colon, the argument of [lastIndexOf(':')]. *)
Definition COLON : code_unit := 58%N.

(** A value of type [string | null | undefined]. *)
Inductive jsval : Type :=
  | JUndefined
  | JNull
  | JString (s : jsstring).

Definition of_option (o : option jsstring) : jsval :=
  match o with
  | Some s => JString s
  | None => JUndefined
  end.

(** String conversion, as in a template literal or [URLSearchParams.append]. *)
Definition to_string (v : jsval) : jsstring :=
  match v with
  | JUndefined => lit "undefined"
  | JNull => lit "null"
  | JString s => s
  end.

(** [n.toString()] for a non-negative integer. *)
Definition nat_to_string (n : nat) : jsstring :=
  lit (NilEmpty.string_of_uint (Nat.to_uint n)).

Definition jsstring_eqb (a b : jsstring) : bool :=
  bool_decide (a = b).

(** *** Conversion to [USVString]

    What the Web APIs do to a string argument ([URLSearchParams.append]
    among them): a surrogate that is not part of a pair is replaced by
    U+FFFD. *)

Definition is_high_surrogate (c : code_unit) : bool :=
  ((55296 <=? c) && (c <=? 56319))%N.

Definition is_low_surrogate (c : code_unit) : bool :=
  ((56320 <=? c) && (c <=? 57343))%N.

(** U+FFFD, the replacement character. *)
Definition REPLACEMENT : code_unit := 65533%N.

Fixpoint usv (s : jsstring) : jsstring :=
  match s with
  | [] => []
  | c :: s' =>
      if is_high_surrogate c then
        match s' with
        | d :: s'' =>
            if is_low_surrogate d then c :: d :: usv s''
            else REPLACEMENT :: usv s'
        | [] => [REPLACEMENT]
        end
      else if is_low_surrogate c then REPLACEMENT :: usv s'
      else c :: usv s'
  end.

(** *** Character classes of regular expressions (no [u], [s] or [i] flag) *)

(** [LineTerminator]: LF, CR, LS, PS.  The dot matches everything else. *)
Definition is_line_terminator (c : code_unit) : bool :=
  ((c =? 10) || (c =? 13) || (c =? 8232) || (c =? 8233))%N.

(** [\s]: WhiteSpace and LineTerminator. *)
Definition is_white_space (c : code_unit) : bool :=
  ((c =? 9) || (c =? 10) || (c =? 11) || (c =? 12) || (c =? 13) || (c =? 32)
   || (c =? 160) || (c =? 5760) || ((8192 <=? c) && (c <=? 8202))
   || (c =? 8232) || (c =? 8233) || (c =? 8239) || (c =? 8287)
   || (c =? 12288) || (c =? 65279))%N.

(** [\d]: the ten ASCII digits. *)
Definition is_digit (c : code_unit) : bool :=
  ((48 <=? c) && (c <=? 57))%N.

(** *** The regular expressions of the handler

    Every pattern of the handler is a fixed run of single-character atoms
    followed by the greedy capture group (dot-star); a pattern is the list of its
    atoms, the group being implied. *)

Inductive atom : Type :=
  | Chr (c : code_unit)   (* a literal character, escaped or not *)
  | Digit                 (* \d *)
  | Space.                (* \s *)

Definition pattern : Type := list atom.

Definition chars (s : string) : pattern := map Chr (lit s).
Arguments chars s%_string.

Definition atom_accepts (a : atom) (c : code_unit) : bool :=
  match a with
  | Chr x => (c =? x)%N
  | Digit => is_digit c
  | Space => is_white_space c
  end.

(** The atoms against the head of the input: the text consumed and what is
    left, or [None]. *)
Fixpoint match_atoms (p : pattern) (s : jsstring) : option (jsstring * jsstring) :=
  match p with
  | [] => Some ([], s)
  | a :: p' =>
      match s with
      | [] => None
      | c :: s' =>
          if atom_accepts a c then
            match match_atoms p' s' with
            | Some (m, r) => Some (c :: m, r)
            | None => None
            end
          else None
      end
  end.

(** The capture group, dot-star: the longest run of characters that are not line terminators. *)
Fixpoint dot_star (s : jsstring) : jsstring * jsstring :=
  match s with
  | [] => ([], [])
  | c :: s' =>
      if is_line_terminator c then ([], s)
      else let '(g, r) := dot_star s' in (c :: g, r)
  end.

(** A match result: element 0 (the whole match), element 1 (the group), and
    the input that follows the match. *)
Record rmatch : Type := RMatch {
  whole : jsstring;
  group1 : jsstring;
  after : jsstring
}.

(** The pattern anchored at the head of the input.  Nothing follows the
    group, so the greedy group never gives anything back. *)
Definition match_at (p : pattern) (s : jsstring) : option rmatch :=
  match match_atoms p s with
  | Some (m, r) =>
      let '(g, r') := dot_star r in
      Some (RMatch (m ++ g) g r')
  | None => None
  end.

(** [RegExp.prototype.exec] from index 0: the leftmost match. *)
Fixpoint exec (p : pattern) (s : jsstring) : option rmatch :=
  match match_at p s with
  | Some m => Some m
  | None =>
      match s with
      | [] => None
      | _ :: s' => exec p s'
      end
  end.

(** [s.match(re)] for a pattern without the [g] flag: the array
    [[whole, group]] of the leftmost match, or [null]. *)
Definition match_first (p : pattern) (s : jsstring) : option (list jsstring) :=
  match exec p s with
  | Some m => Some [whole m; group1 m]
  | None => None
  end.

(** The whole matches of a [g] pattern, left to right.  After a match the
    scan resumes where the match ended: [skip] counts the characters of the
    current match still to be passed over (an empty match advances by one). *)
Fixpoint scan_all (p : pattern) (s : jsstring) (skip : nat) : list jsstring :=
  match s with
  | [] =>
      match skip, match_at p [] with
      | O, Some m => [whole m]
      | _, _ => []
      end
  | _ :: s' =>
      match skip with
      | S k => scan_all p s' k
      | O =>
          match match_at p s with
          | Some m => whole m :: scan_all p s' (length (whole m) - 1)
          | None => scan_all p s' 0
          end
      end
  end.

(** [s.match(re)] for a pattern with the [g] flag: every whole match, or
    [null] when there is none. *)
Definition match_global (p : pattern) (s : jsstring) : option (list jsstring) :=
  match scan_all p s 0 with
  | [] => None
  | ms => Some ms
  end.

(** *** [split], [lastIndexOf], [substring] *)

(** [s] with [sep] removed from its head, if it starts with [sep]. *)
Fixpoint strip_prefix (sep s : jsstring) : option jsstring :=
  match sep with
  | [] => Some s
  | x :: sep' =>
      match s with
      | [] => None
      | c :: s' => if (c =? x)%N then strip_prefix sep' s' else None
      end
  end.

(** [s.split(sep)] for a non-empty separator: [cur] holds, reversed, the
    piece being read, and [skip] the characters of a separator just found
    that are still to be passed over. *)
Fixpoint split_go (sep s cur : jsstring) (skip : nat) : list jsstring :=
  match s with
  | [] => [rev cur]
  | c :: s' =>
      match skip with
      | S k => split_go sep s' cur k
      | O =>
          match strip_prefix sep s with
          | Some _ => rev cur :: split_go sep s' [] (length sep - 1)
          | None => split_go sep s' (c :: cur) 0
          end
      end
  end.

Definition split (sep s : jsstring) : list jsstring :=
  split_go sep s [] 0.

(** [s.lastIndexOf(c)] for a one-character search string: the index of the
    last occurrence, or -1. *)
Fixpoint lastIndexOf (c : code_unit) (s : jsstring) : Z :=
  match s with
  | [] => (-1)%Z
  | x :: s' =>
      let i := lastIndexOf c s' in
      if (0 <=? i)%Z then (i + 1)%Z
      else if (x =? c)%N then 0%Z else (-1)%Z
  end.

(** [s.substring(start)]: a negative start counts as 0, one past the end
    gives the empty string. *)
Definition substring (start : Z) (s : jsstring) : jsstring :=
  drop (Z.to_nat (Z.max 0 start)) s.

(** [a[i]] on an array: [undefined] outside of it. *)
Definition index {A : Type} (l : list A) (i : Z) : option A :=
  if (i <? 0)%Z then None else l !! Z.to_nat i.

End Js.

(** ** The data of the endpoint *)

Import Js.

(** [type Meme]: an entry of [public/memes.json].  The file is parsed JSON, so
    a description may also be [null], or missing altogether ([undefined]). *)
Module Meme.
Record t : Type := Make {
  id : jsstring;
  name : jsstring;
  url : jsstring;
  box_count : nat;
  description : jsval
}.
End Meme.

(** An element of [captions]: the object [{ text: captionText }]. *)
Record Caption : Type := { text : jsval }.

(** [type Data]: the body of the response; every field is optional. *)
Record Data : Type := {
  error : option jsstring;
  memeUrl : option jsval;
  captions : option (list Caption);
  invitation : option jsval
}.

Definition error_body (msg : jsstring) : Data :=
  {| error := Some msg; memeUrl := None; captions := None; invitation := None |}.

(** The document written to the [memes] collection. *)
Record MemeDoc : Type := {
  imgFlipMemeId : jsstring;
  doc_captions : list Caption;
  doc_invitation : jsval;
  created : Z;
  random : nat
}.

(** What [fetch] resolves to, as far as the handler looks at it: [ok],
    [statusText], and [data.url] of the JSON body.  The body is taken to be
    readable: [await response.json()], which the handler runs after the
    write to the store, resolves. *)
Record Response : Type := {
  ok : bool;
  statusText : jsstring;
  json_data_url : jsval
}.

(** What the outside world answers during one request. *)
Record env : Type := {
  req_method : jsstring;
  (** [public/memes.json]; [None] when the file does not exist *)
  memes_json : option (list Meme.t);
  (** the successive values of [Math.random()] *)
  random_draws : list Q;
  (** [completion?.data?.choices[0]?.message?.content] *)
  completion_content : jsval;
  IMGFLIP_USERNAME : jsval;
  IMGFLIP_PASSWORD : jsval;
  (** the response of [api.imgflip.com/caption_image] *)
  imgflip_response : Response;
  (** the value of [uuidv4()] *)
  uuid : jsstring;
  (** the value of [new Date()], in milliseconds *)
  now : Z
}.

(** The calls the handler makes to its collaborators, in order. *)
Inductive event : Type :=
  | ChatCompletion (model content : jsstring)
  | CaptionImage (body : list (jsstring * jsstring))
  | GetCount
  | SetDoc (key : jsstring) (d : MemeDoc)
  | Diagnostics (meme_name meme_id message : jsstring)
      (logged_captions : list Caption) (logged_invitation : jsval)
      (status : jsstring).

(** The [memes] collection, what [res] was sent, and the calls made so far. *)
Record state : Type := {
  store : gmap jsstring MemeDoc;
  res : option (nat * Data);
  trace : list event
}.

Definition init (db : gmap jsstring MemeDoc) : state :=
  {| store := db; res := None; trace := [] |}.

(** ** Control flow: state, early [return], exceptions

    A computation either yields a value or stops: by a [return] statement, by
    a [TypeError], or because the rejection loop used up the random values it
    was given without leaving. *)

Inductive stop : Type :=
  | Returned
  | TypeError
  | Spinning.

Definition M (A : Type) : Type := state → (A + stop) * state.

#[global] Instance M_ret : MRet M := λ A a st, (inl a, st).

#[global] Instance M_bind : MBind M := λ A B f c st,
  match c st with
  | (inl a, st') => f a st'
  | (inr x, st') => (inr x, st')
  end.

Definition halt {A : Type} (x : stop) : M A := λ st, (inr x, st).

(** The [return] statement. *)
Definition return_ {A : Type} : M A := halt Returned.

Definition emit (ev : event) : M unit := λ st,
  (inl tt, {| store := store st; res := res st; trace := trace st ++ [ev] |}).

(** [res.status(code).json(body)] *)
Definition respond (code : nat) (body : Data) : M unit := λ st,
  (inl tt, {| store := store st; res := Some (code, body); trace := trace st |}).

(** Reading a property of [chosenMeme]: a [TypeError] on [undefined]. *)
Definition deref (chosenMeme : option Meme.t) : M Meme.t :=
  match chosenMeme with
  | Some m => mret m
  | None => halt TypeError
  end.

(** ** Template selection *)

(** [Math.floor(Math.random() * memes.length)], the product taken exactly.
    The source rounds the product to a double, which can move the floor of
    a draw that lies on the edge of two indices; the index stays at least 0
    and below the length either way. *)
Definition random_index (r : Q) (len : nat) : Z :=
  Qfloor (r * inject_Z (Z.of_nat len)).

(** [chosenMeme?.description === null] *)
Definition description_is_null (chosenMeme : option Meme.t) : bool :=
  match chosenMeme with
  | Some m =>
      match Meme.description m with
      | JNull => true
      | _ => false
      end
  | None => false
  end.

Inductive selection : Type :=
  | Chosen (chosenMeme : option Meme.t)
  | StillLooping.

(** The [do ... while] loop, run on the given values of [Math.random()]. *)
Fixpoint select (memes : list Meme.t) (draws : list Q) : selection :=
  match draws with
  | [] => StillLooping
  | r :: draws' =>
      let chosenMeme := index memes (random_index r (length memes)) in
      if description_is_null chosenMeme then select memes draws'
      else Chosen chosenMeme
  end.

Definition do_while (memes : list Meme.t) (draws : list Q) : M (option Meme.t) :=
  match select memes draws with
  | Chosen chosenMeme => mret chosenMeme
  | StillLooping => halt Spinning
  end.

(** ** The chat prompt *)

Definition indent : jsstring := lit "        ".

(** The template literal sent as the user message. *)
Definition prompt (m : Meme.t) : jsstring :=
  [LF] ++ indent
  ++ lit "Can you write a meme-style statement for my BCOE gala pickup line? "
  ++ [LF] ++ indent
  ++ lit "In addition, can you write the " ++ nat_to_string (Meme.box_count m)
  ++ lit " captions that go into the text boxes of the " ++ [DQUOTE]
  ++ Meme.name m ++ [DQUOTE] ++ lit " meme."
  ++ [LF] ++ indent
  ++ lit "The description of the meme is the following: " ++ [DQUOTE]
  ++ to_string (Meme.description m) ++ [DQUOTE] ++ lit "."
  ++ [LF] ++ indent
  ++ lit "Also, can you write the captions in the following format so that my script can easily retrieve it?"
  ++ [LF] ++ indent
  ++ lit "The invitation (not the caption) can include hashtags and emojis if it makes it better!"
  ++ [LF] ++ [LF] ++ indent
  ++ lit "Caption[caption_number]: [caption]"
  ++ [LF] ++ indent
  ++ lit "Invitation: [invitation]".

(** ** Parsing the model's answer

    The regular expressions are quoted with blanks inside the parentheses of
    their capture group, which the source writes without. *)

(** [/Caption\[\d\]:\s( .* )/g] *)
Definition caption_bracketed : pattern :=
  chars "Caption[" ++ [Digit] ++ chars "]:" ++ [Space].
(** [/Caption\s\d\:\s( .* )/g] *)
Definition caption_spaced : pattern :=
  chars "Caption" ++ [Space; Digit] ++ chars ":" ++ [Space].
(** [/Caption\d\:\s( .* )/g] *)
Definition caption_unspaced : pattern :=
  chars "Caption" ++ [Digit] ++ chars ":" ++ [Space].

(** [/Invitation:\s( .* )/] *)
Definition invitation_spaced : pattern := chars "Invitation:" ++ [Space].
(** [/Invitation:\n( .* )/] *)
Definition invitation_newline : pattern := chars "Invitation:" ++ [Chr LF].

(** [a || b] on values that are an array or [null]. *)
Definition or_else {A : Type} (a : option A) (b : option A) : option A :=
  match a with
  | Some x => Some x
  | None => b
  end.

Definition captionMatches (message : jsstring) : list jsstring :=
  default []
    (or_else (match_global caption_bracketed message)
       (or_else (match_global caption_spaced message)
          (match_global caption_unspaced message))).

(** [const [, captionText] = caption.split(": ")] *)
Definition captionText (caption : jsstring) : jsval :=
  of_option (split (lit ": ") caption !! 1%nat).

Definition captions_of (message : jsstring) : list Caption :=
  map (λ caption, {| text := captionText caption |}) (captionMatches message).

Definition invitationMatch (message : jsstring) : list jsstring :=
  default []
    (or_else (match_first invitation_spaced message)
       (match_first invitation_newline message)).

(** [invitationMatch[0] || ": "]: the empty string is falsy as well. *)
Definition first_or_separator (invitationMatch : list jsstring) : jsstring :=
  match invitationMatch !! 0%nat with
  | Some (c :: s) => c :: s
  | _ => lit ": "
  end.

Definition invitation_of (message : jsstring) : jsval :=
  let invitationMatch := invitationMatch message in
  let invitation :=
    of_option (split (lit ": ") (first_or_separator invitationMatch) !! 1%nat) in
  if (length invitationMatch =? 0)%nat then
    let lastColonIndex := lastIndexOf COLON message in
    JString (substring (lastColonIndex + 1) message)
  else invitation.

(** [invitation === undefined || invitation === null || invitation === ''] *)
Definition invitation_missing (invitation : jsval) : bool :=
  match invitation with
  | JUndefined | JNull => true
  | JString s => jsstring_eqb s []
  end.

(** ** The request to imgflip *)

(** [body.append(name, value)]: the pair that is added to the body, both
    strings converted to [USVString]. *)
Definition body_append (name value : jsstring) : jsstring * jsstring :=
  (usv name, usv value).

(** The [URLSearchParams] body, as the list of its appended pairs. *)
Definition body_of (e : env) (m : Meme.t) (captions : list Caption)
  : list (jsstring * jsstring) :=
  [ body_append (lit "template_id") (Meme.id m);
    body_append (lit "username") (to_string (IMGFLIP_USERNAME e));
    body_append (lit "password") (to_string (IMGFLIP_PASSWORD e)) ]
  ++ imap (λ index caption,
        body_append (lit "boxes[" ++ nat_to_string index ++ lit "][text]")
          (to_string (text caption))) captions.

(** ** The collaborators *)

Definition createChatCompletion (e : env) (model content : jsstring) : M jsval :=
  emit (ChatCompletion model content) ;; mret (completion_content e).

Definition fetch_caption_image (e : env) (body : list (jsstring * jsstring))
  : M Response :=
  emit (CaptionImage body) ;; mret (imgflip_response e).

(** [getCountFromServer(coll)]: the number of documents in the collection. *)
Definition getCountFromServer : M nat := λ st,
  (inl (size (store st)),
   {| store := store st; res := res st; trace := trace st ++ [GetCount] |}).

(** [setDoc(doc(db, "memes", key), d)]: creates or overwrites the document. *)
Definition setDoc (key : jsstring) (d : MemeDoc) : M unit := λ st,
  (inl tt,
   {| store := <[key := d]> (store st); res := res st;
      trace := trace st ++ [SetDoc key d] |}).

(** ** The handler *)

Definition handler (e : env) : M unit :=
  if negb (jsstring_eqb (req_method e) (lit "POST")) then
    respond 405 (error_body (lit "This type of request is not supported.")) ;;
    return_
  else
  match memes_json e with
  | None =>
      respond 500 (error_body (lit "Unable to retrieve memes.")) ;;
      return_
  | Some memes =>
      chosenMeme ← do_while memes (random_draws e) ;
      m ← deref chosenMeme ;
      message ← createChatCompletion e (lit "gpt-3.5-turbo") (prompt m) ;
      match message with
      | JNull | JUndefined | JString [] =>
          respond 500 (error_body (lit "Unable to contact ChatGPT's servers.")) ;;
          return_
      | JString message =>
          let captions := captions_of message in
          let invitation := invitation_of message in
          let body := body_of e m captions in
          response ← fetch_caption_image e body ;
          if negb (ok response) || invitation_missing invitation
             || (length captions =? 0)%nat
          then
            emit (Diagnostics (Meme.name m) (Meme.id m) message captions
                    invitation (statusText response)) ;;
            respond 500 (error_body (lit "Unable to generate meme.")) ;;
            return_
          else
            count ← getCountFromServer ;
            setDoc (uuid e)
              {| imgFlipMemeId := Meme.id m;
                 doc_captions := captions;
                 doc_invitation := invitation;
                 created := now e;
                 random := count |} ;;
            let memeUrl := json_data_url response in
            respond 201
              {| error := None;
                 memeUrl := Some memeUrl;
                 captions := Some captions;
                 invitation := Some invitation |}
      end
  end.

(** How a request ends: the handler ran to its end or returned, threw, or is
    still in the selection loop. *)
Inductive outcome : Type :=
  | Completed
  | Threw
  | Loops.

Definition run (e : env) (db : gmap jsstring MemeDoc) : outcome * state :=
  match handler e (init db) with
  | (inl _, st) | (inr Returned, st) => (Completed, st)
  | (inr TypeError, st) => (Threw, st)
  | (inr Spinning, st) => (Loops, st)
  end.

(** * Vocabulary of the statements *)

(** ** Selection *)

(** A value [Math.random()] can return: at least 0, below 1. *)
Definition unit_draw (r : Q) : Prop := (0 <= r)%Q ∧ (r < 1)%Q.

(** A description is present: neither [undefined] nor [null]. *)
Definition described (m : Meme.t) : Prop :=
  ∃ s, Meme.description m = JString s.

(** The draw [r] picks the entry [m], whose description is not [null]. *)
Definition lands_on (memes : list Meme.t) (r : Q) (m : Meme.t) : Prop :=
  index memes (random_index r (length memes)) = Some m
  ∧ Meme.description m ≠ JNull.

(** ** Texts *)

(** [w] occurs in [s] as a substring. *)
Definition occurs (w s : jsstring) : Prop :=
  ∃ pre post, s = pre ++ w ++ post.

(** A decision procedure for [occurs]. *)
Fixpoint occursb (w s : jsstring) : bool :=
  match strip_prefix w s with
  | Some _ => true
  | None =>
      match s with
      | [] => false
      | _ :: s' => occursb w s'
      end
  end.

(** The atoms of [p] match at position [i] of [s]: a match begins there. *)
Definition begins_at (p : pattern) (s : jsstring) (i : nat) : Prop :=
  is_Some (match_atoms p (drop i s)).

(** The positions of [s] where a match of [p] begins, counted from [i]. *)
Fixpoint starts_from (p : pattern) (s : jsstring) (i : nat) : list nat :=
  (if match_atoms p s is Some _ then [i] else [])
  ++ match s with
     | [] => []
     | _ :: s' => starts_from p s' (S i)
     end.

(** [s] begins with a line terminator. *)
Definition breaks (s : jsstring) : Prop :=
  ∃ t s', s = t :: s' ∧ is_line_terminator t = true.

(** [s] is empty or begins with a line terminator: a line ends before it. *)
Definition line_end (s : jsstring) : Prop := s = [] ∨ breaks s.

(** [s] is empty or ends with a line terminator: a line begins after it. *)
Definition line_start (s : jsstring) : Prop :=
  s = [] ∨ ∃ s' t, s = s' ++ [t] ∧ is_line_terminator t = true.

(** [g] holds no line terminator. *)
Definition one_line (g : jsstring) : Prop :=
  Forall (λ c, is_line_terminator c = false) g.

(** [l] is one of the lines of [s]. *)
Definition has_line (l s : jsstring) : Prop :=
  ∃ pre post, s = pre ++ l ++ post ∧ line_start pre ∧ line_end post.

(** The marker both invitation patterns start with. *)
Definition marker : jsstring := lit "Invitation:".

(** The three lines of the parser example. *)
Definition line1 : jsstring := lit "Caption[1]: A".
Definition line2 : jsstring := lit "Caption[2]: B".
Definition line3 : jsstring := lit "Invitation: Come!".

(** What the example is expected to parse to. *)
Definition captions_A_B : list Caption :=
  [ {| text := JString (lit "A") |}; {| text := JString (lit "B") |} ].

(** ** Requests *)

(** Absent ([undefined] or [null]) or the empty string. *)
Definition missing (v : jsval) : Prop :=
  v = JUndefined ∨ v = JNull ∨ v = JString [].

Definition is_render (ev : event) : bool :=
  match ev with
  | CaptionImage _ => true
  | _ => false
  end.

Definition is_store_op (ev : event) : bool :=
  match ev with
  | GetCount | SetDoc _ _ => true
  | _ => false
  end.

(** The condition under which the handler gives up after the render call:
    [!response.ok || invitation === undefined || invitation === null
     || invitation === '' || captions.length === 0]. *)
Definition generation_failed (e : env) (message : jsstring) : bool :=
  negb (ok (imgflip_response e)) || invitation_missing (invitation_of message)
  || (length (captions_of message) =? 0)%nat.

(** The body of the 201 response. *)
Definition success_body (e : env) (message : jsstring) : Data :=
  {| error := None;
     memeUrl := Some (json_data_url (imgflip_response e));
     captions := Some (captions_of message);
     invitation := Some (invitation_of message) |}.

(** The document of a successful request, [count] documents being stored. *)
Definition new_doc (e : env) (m : Meme.t) (message : jsstring) (count : nat)
  : MemeDoc :=
  {| imgFlipMemeId := Meme.id m;
     doc_captions := captions_of message;
     doc_invitation := invitation_of message;
     created := now e;
     random := count |}.

Definition chat_event (m : Meme.t) : event :=
  ChatCompletion (lit "gpt-3.5-turbo") (prompt m).

Definition render_event (e : env) (m : Meme.t) (message : jsstring) : event :=
  CaptionImage (body_of e m (captions_of message)).

Definition diagnostics_event (e : env) (m : Meme.t) (message : jsstring) : event :=
  Diagnostics (Meme.name m) (Meme.id m) message (captions_of message)
    (invitation_of message) (statusText (imgflip_response e)).

Definition unable_to_contact : Data :=
  error_body (lit "Unable to contact ChatGPT's servers.").

Definition unable_to_generate : Data :=
  error_body (lit "Unable to generate meme.").

(** The seven ways a request can go, with what it leaves behind. *)
Inductive request_path (e : env) (db : gmap jsstring MemeDoc)
  : outcome * state → Prop :=
  | path_method_not_allowed :
      req_method e ≠ lit "POST" →
      request_path e db
        (Completed,
         {| store := db;
            res := Some (405%nat, error_body (lit "This type of request is not supported."));
            trace := [] |})
  | path_no_catalog :
      req_method e = lit "POST" → memes_json e = None →
      request_path e db
        (Completed,
         {| store := db;
            res := Some (500%nat, error_body (lit "Unable to retrieve memes."));
            trace := [] |})
  | path_still_looping memes :
      req_method e = lit "POST" → memes_json e = Some memes →
      select memes (random_draws e) = StillLooping →
      request_path e db (Loops, init db)
  | path_undefined_meme memes :
      req_method e = lit "POST" → memes_json e = Some memes →
      select memes (random_draws e) = Chosen None →
      request_path e db (Threw, init db)
  | path_no_content memes m :
      req_method e = lit "POST" → memes_json e = Some memes →
      select memes (random_draws e) = Chosen (Some m) →
      missing (completion_content e) →
      request_path e db
        (Completed,
         {| store := db; res := Some (500%nat, unable_to_contact);
            trace := [chat_event m] |})
  | path_generation_failed memes m message :
      req_method e = lit "POST" → memes_json e = Some memes →
      select memes (random_draws e) = Chosen (Some m) →
      completion_content e = JString message → message ≠ [] →
      generation_failed e message = true →
      request_path e db
        (Completed,
         {| store := db; res := Some (500%nat, unable_to_generate);
            trace := [chat_event m; render_event e m message;
                      diagnostics_event e m message] |})
  | path_success memes m message :
      req_method e = lit "POST" → memes_json e = Some memes →
      select memes (random_draws e) = Chosen (Some m) →
      completion_content e = JString message → message ≠ [] →
      generation_failed e message = false →
      request_path e db
        (Completed,
         {| store := <[uuid e := new_doc e m message (size db)]> db;
            res := Some (201%nat, success_body e message);
            trace := [chat_event m; render_event e m message; GetCount;
                      SetDoc (uuid e) (new_doc e m message (size db))] |}).

(** ** Sample data *)

Definition drake : Meme.t :=
  Meme.Make (lit "181913649") (lit "Drake Hotline Bling")
    (lit "https://i.imgflip.com/30b1gx.jpg") 2
    (JString (lit "Drake rejects one thing and approves of another")).

(** An entry whose description is [null]. *)
Definition two_buttons : Meme.t :=
  Meme.Make (lit "87743020") (lit "Two Buttons")
    (lit "https://i.imgflip.com/1g8my4.jpg") 3 JNull.

(** An entry whose description key is missing. *)
Definition distracted : Meme.t :=
  Meme.Make (lit "112126428") (lit "Distracted Boyfriend")
    (lit "https://i.imgflip.com/1ur9b0.jpg") 3 JUndefined.

(** The text of the parser example: its three lines and nothing else. *)
Definition sample_message : jsstring :=
  line1 ++ [LF] ++ line2 ++ [LF] ++ line3.

Definition sample_response (render_ok : bool) : Response :=
  {| ok := render_ok;
     statusText := if render_ok then lit "OK" else lit "Forbidden";
     json_data_url := JString (lit "https://i.imgflip.com/7abcde.jpg") |}.

(** A POST request on the catalog [memes]: the model answers [content], the
    render call succeeds or not. *)
Definition sample_request (memes : list Meme.t) (content : jsval)
    (render_ok : bool) : env :=
  {| req_method := lit "POST";
     memes_json := Some memes;
     random_draws := [(1 # 4)%Q; (3 # 4)%Q];
     completion_content := content;
     IMGFLIP_USERNAME := JString (lit "user");
     IMGFLIP_PASSWORD := JString (lit "secret");
     imgflip_response := sample_response render_ok;
     uuid := lit "3f2b8c1e-5d4a-4f6b-9a7c-0e1d2c3b4a59";
     now := 1680000000000%Z |}.

(** ** Further vocabulary *)

(** The middle of the [i]-th of the [len] equal parts of the unit interval:
    the draw [(2 i + 1) / (2 len)]. *)
Definition middle_draw (i len : nat) : Q :=
  (2 * Z.of_nat i + 1) # Pos.of_nat (2 * len).

(** [line] stands at position [p] of [s] and ends there: a line terminator
    or the end of the text follows it. *)
Definition line_at (line s : jsstring) (p : nat) : Prop :=
  ∃ rest, drop p s = line ++ rest ∧ line_end rest.

(** The parser example with its invitation line first. *)
Definition invitation_first_message : jsstring :=
  line3 ++ [LF] ++ line1 ++ [LF] ++ line2.

(** Neither half of a surrogate pair. *)
Definition plain (c : code_unit) : bool :=
  negb (is_high_surrogate c) && negb (is_low_surrogate c).

(** Every surrogate of [s] is part of a pair: [s] is a sequence of scalar
    values. *)
Fixpoint well_formed (s : jsstring) : bool :=
  match s with
  | [] => true
  | c :: s' =>
      if is_high_surrogate c then
        match s' with
        | d :: s'' => is_low_surrogate d && well_formed s''
        | [] => false
        end
      else negb (is_low_surrogate c) && well_formed s'
  end.


(** [l.join(sep)] *)
Fixpoint join (sep : jsstring) (l : list jsstring) : jsstring :=
  match l with
  | [] => []
  | x :: l' =>
      match l' with
      | [] => x
      | _ :: _ => x ++ sep ++ join sep l'
      end
  end.

(** While [split] reads a piece: no occurrence of the separator begins
    within the piece read so far, [s] being what follows it. *)
Definition piece_clean (sep cur s : jsstring) : Prop :=
  ∀ a b, rev cur = a ++ b → b ≠ [] → strip_prefix sep (b ++ s) = None.



(** * Properties *)

(** ** Template selection *)

Section Selection.

Lemma random_index_bound (r : Q) (len : nat) :
  unit_draw r → (0 < len)%nat →
  (0 ≤ random_index r len < Z.of_nat len)%Z.
Proof.
  intros [H0 H1] Hlen. unfold random_index.
  set (n := inject_Z (Z.of_nat len)).
  assert (Hn : (0 < n)%Q).
  { unfold n. change 0%Q with (inject_Z 0). rewrite <- Zlt_Qlt. lia. }
  split.
  - rewrite <- (Qfloor_Z 0). apply Qfloor_resp_le.
    change (inject_Z 0) with 0%Q.
    apply Qmult_le_0_compat; [exact H0 | apply Qlt_le_weak; exact Hn].
  - rewrite Zlt_Qlt. fold n.
    apply Qle_lt_trans with (y := (r * n)%Q); [apply Qfloor_le |].
    apply Qlt_le_trans with (y := (1 * n)%Q).
    + apply Qmult_lt_compat_r; assumption.
    + rewrite Qmult_1_l. apply Qle_refl.
Qed.

(** On an empty array every draw gives index 0. *)
Lemma random_index_empty (r : Q) : random_index r 0 = 0%Z.
Proof.
  unfold random_index. destruct r as [a b]. unfold Qfloor, Qmult. simpl.
  rewrite Z.mul_0_r. apply Z.div_0_l. lia.
Qed.

(** On a non-empty array the index of a draw always hits an element. *)
Lemma index_random_Some (memes : list Meme.t) (r : Q) :
  memes ≠ [] → unit_draw r →
  ∃ m, index memes (random_index r (length memes)) = Some m ∧ m ∈ memes.
Proof.
  intros Hne Hr.
  assert (Hlen : (0 < length memes)%nat) by (destruct memes; [done | simpl; lia]).
  destruct (random_index_bound r (length memes) Hr Hlen) as [Hlo Hhi].
  unfold index. destruct (Z.ltb_spec (random_index r (length memes)) 0); [lia |].
  destruct (lookup_lt_is_Some_2 memes (Z.to_nat (random_index r (length memes))))
    as [m Hm]; [lia |].
  exists m. split; [exact Hm |]. apply list_elem_of_lookup. eauto.
Qed.

Lemma description_is_null_spec (c : option Meme.t) :
  description_is_null c = true ↔ ∃ m, c = Some m ∧ Meme.description m = JNull.
Proof.
  split.
  - destruct c as [m|]; simpl; [| discriminate].
    destruct (Meme.description m) eqn:E; try discriminate. eauto.
  - intros (m & -> & E). simpl. by rewrite E.
Qed.

(** Whatever the loop leaves with was picked by a draw and passed the test. *)
Lemma select_Chosen (memes : list Meme.t) (draws : list Q) (c : option Meme.t) :
  select memes draws = Chosen c →
  ∃ r, r ∈ draws
       ∧ c = index memes (random_index r (length memes))
       ∧ description_is_null c = false.
Proof.
  induction draws as [| r draws IH]; simpl; [discriminate |].
  destruct (description_is_null (index memes _)) eqn:E.
  - intros H. destruct (IH H) as (r' & ? & ? & ?).
    exists r'. split; [by right | done].
  - intros [= <-]. exists r. split; [by left | done].
Qed.

(** The loop leaves as soon as a draw lands on an entry it accepts. *)
Lemma select_leaves (memes : list Meme.t) (draws : list Q) :
  (∃ r m, r ∈ draws ∧ lands_on memes r m) →
  ∃ c, select memes draws = Chosen c.
Proof.
  induction draws as [| r draws IH]; intros (r' & m & Hin & Hidx & Hd).
  - by apply elem_of_nil in Hin.
  - simpl. destruct (description_is_null _) eqn:E; [| eauto].
    apply IH. apply elem_of_cons in Hin as [-> | Hin].
    + apply description_is_null_spec in E as (m' & E1 & E2). congruence.
    + exists r', m. by repeat split.
Qed.

(** On a non-empty catalog the loop never leaves with [undefined], and
    never with an entry whose description is [null]. *)
Lemma select_sound (memes : list Meme.t) (draws : list Q) (c : option Meme.t) :
  memes ≠ [] → Forall unit_draw draws →
  select memes draws = Chosen c →
  ∃ m, c = Some m ∧ m ∈ memes ∧ Meme.description m ≠ JNull.
Proof.
  intros Hne Hdraws Hsel.
  apply select_Chosen in Hsel as (r & Hin & Hc & Hnull).
  rewrite Forall_forall in Hdraws.
  destruct (index_random_Some memes r Hne (Hdraws r Hin)) as (m & Hm & Hmem).
  exists m. split; [congruence |]. split; [exact Hmem |].
  intros Hd. assert (description_is_null c = true); [| congruence].
  apply description_is_null_spec. exists m. split; congruence.
Qed.

(** On an empty catalog the loop leaves at once, with [undefined]. *)
Lemma select_empty (r : Q) (draws : list Q) :
  select [] (r :: draws) = Chosen None.
Proof. simpl. by rewrite random_index_empty. Qed.

Lemma unit_draw_quarters : Forall unit_draw [(1 # 4)%Q; (3 # 4)%Q].
Proof. repeat constructor; unfold Qle, Qlt; simpl; lia. Defined.

(** X24.  On a non-empty catalog, for every sequence of draws: what the
    selection loop returns is an entry of the catalog whose description is
    not [null]; and the loop does return once a draw picks such an entry. *)
Theorem select_never_null (memes : list Meme.t) (draws : list Q) :
  memes ≠ [] → Forall unit_draw draws →
  (∀ c, select memes draws = Chosen c →
        ∃ m, c = Some m ∧ m ∈ memes ∧ Meme.description m ≠ JNull)
  ∧ ((∃ r m, r ∈ draws ∧ lands_on memes r m) →
     ∃ m, select memes draws = Chosen (Some m)
          ∧ m ∈ memes ∧ Meme.description m ≠ JNull).
Proof.
  intros Hne Hdraws. split.
  - intros c. by apply select_sound.
  - intros Hland. destruct (select_leaves memes draws Hland) as [c Hc].
    destruct (select_sound memes draws c Hne Hdraws Hc) as (m & -> & Hm & Hd).
    by exists m.
Qed.

Lemma select_never_null_witness :
  (∀ c, select [two_buttons; drake] [(1 # 4)%Q; (3 # 4)%Q] = Chosen c →
        ∃ m, c = Some m ∧ m ∈ [two_buttons; drake]
             ∧ Meme.description m ≠ JNull)
  ∧ ((∃ r m, r ∈ [(1 # 4)%Q; (3 # 4)%Q]
             ∧ lands_on [two_buttons; drake] r m) →
     ∃ m, select [two_buttons; drake] [(1 # 4)%Q; (3 # 4)%Q] = Chosen (Some m)
          ∧ m ∈ [two_buttons; drake] ∧ Meme.description m ≠ JNull).
Proof.
  apply (select_never_null [two_buttons; drake] [(1 # 4)%Q; (3 # 4)%Q]).
  - discriminate.
  - exact unit_draw_quarters.
Defined.

(** The loop does not only return described entries: with a described
    entry in the catalog, it still returns the entry whose description is
    missing when the draw picks it. *)
Lemma select_accepts_missing_description :
  ¬ (∀ (memes : list Meme.t) (draws : list Q) (c : option Meme.t),
       memes ≠ [] → (∃ m, m ∈ memes ∧ described m) →
       Forall unit_draw draws →
       select memes draws = Chosen c →
       ∃ m, c = Some m ∧ described m).
Proof.
  intros H.
  destruct (H [distracted; drake] [(1 # 4)%Q] (Some distracted))
    as (m & [= <-] & s & Hs).
  - discriminate.
  - exists drake. split; [by right; left | by eexists].
  - repeat constructor; unfold Qle, Qlt; simpl; lia.
  - reflexivity.
  - discriminate Hs.
Qed.

End Selection.

(** ** The regular-expression and string built-ins *)

Section Builtins.

Lemma match_atoms_app (p : pattern) (s m r : jsstring) :
  match_atoms p s = Some (m, r) → s = m ++ r.
Proof.
  revert s m r. induction p as [| a p IH]; intros s m r; simpl.
  - by intros [= <- <-].
  - destruct s as [| c s]; [discriminate |].
    destruct (atom_accepts a c); [| discriminate].
    destruct (match_atoms p s) as [[m' r'] |] eqn:E; [| discriminate].
    intros [= <- <-]. simpl. f_equal. by apply IH.
Qed.

Lemma dot_star_app (s g r : jsstring) : dot_star s = (g, r) → s = g ++ r.
Proof.
  revert g r. induction s as [| c s IH]; intros g r; simpl.
  - by intros [= <- <-].
  - destruct (is_line_terminator c); [by intros [= <- <-] |].
    destruct (dot_star s) as [g' r'] eqn:E. intros [= <- <-].
    simpl. f_equal. by apply IH.
Qed.

Lemma match_at_app (p : pattern) (s : jsstring) (m : rmatch) :
  match_at p s = Some m → s = whole m ++ after m.
Proof.
  unfold match_at. destruct (match_atoms p s) as [[x r] |] eqn:E; [| discriminate].
  destruct (dot_star r) as [g r'] eqn:D. intros [= <-]. simpl.
  rewrite (match_atoms_app _ _ _ _ E), (dot_star_app _ _ _ D).
  by rewrite app_assoc.
Qed.

Lemma match_at_None (p : pattern) (s : jsstring) :
  match_atoms p s = None → match_at p s = None.
Proof. unfold match_at. by intros ->. Qed.

Lemma match_at_Some_atoms (p : pattern) (s : jsstring) (m : rmatch) :
  match_at p s = Some m → is_Some (match_atoms p s).
Proof.
  unfold match_at. destruct (match_atoms p s); [eauto | discriminate].
Qed.

(** A pattern that starts with literal characters only matches where these
    characters stand. *)
Lemma match_atoms_literal (w : jsstring) (q : pattern) (s : jsstring) :
  is_Some (match_atoms (map Chr w ++ q) s) → ∃ t, s = w ++ t.
Proof.
  revert s. induction w as [| x w IH]; intros s; simpl; [eauto |].
  destruct s as [| c s]; [by intros [? [=]] |].
  destruct (N.eqb_spec c x) as [-> |]; [| by intros [? [=]]].
  destruct (match_atoms (map Chr w ++ q) s) as [[m r] |] eqn:E; [| by intros [? [=]]].
  intros _. destruct (IH s) as [t ->]; [rewrite E; eauto |]. eauto.
Qed.

Lemma exec_Some_inv (p : pattern) (s : jsstring) (m : rmatch) :
  exec p s = Some m → ∃ pre suf, s = pre ++ suf ∧ match_at p suf = Some m.
Proof.
  induction s as [| c s IH]; simpl.
  - destruct (match_at p []) eqn:E; [| discriminate].
    intros [= <-]. by exists [], [].
  - destruct (match_at p (c :: s)) eqn:E.
    + intros [= <-]. by exists [], (c :: s).
    + intros H. destruct (IH H) as (pre & suf & -> & Hm).
      by exists (c :: pre), suf.
Qed.

(** Without an occurrence of its literal head, a pattern matches nowhere. *)
Lemma exec_None_literal (w : jsstring) (q : pattern) (s : jsstring) :
  ¬ occurs w s → exec (map Chr w ++ q) s = None.
Proof.
  intros Hno. destruct (exec _ s) as [m |] eqn:E; [| done].
  exfalso. apply Hno.
  apply exec_Some_inv in E as (pre & suf & -> & Hm).
  apply match_at_Some_atoms, match_atoms_literal in Hm as [t ->].
  by exists pre, t.
Qed.

(** The leftmost match lies beyond the positions where no match begins. *)
Lemma exec_skip (p : pattern) (k : nat) (s : jsstring) :
  (∀ i, (i < k)%nat → ¬ begins_at p s i) → (k ≤ length s)%nat →
  exec p s = exec p (drop k s).
Proof.
  revert s. induction k as [| k IH]; intros s Hno Hlen; [done |].
  destruct s as [| c s]; [simpl in Hlen; lia |].
  simpl exec at 1. rewrite match_at_None.
  - simpl. apply IH; [| simpl in Hlen; lia].
    intros i Hi. apply (Hno (S i)). lia.
  - specialize (Hno 0%nat (Nat.lt_0_succ k)). unfold begins_at in Hno. simpl in Hno.
    destruct (match_atoms p (c :: s)); [| done]. exfalso. eauto.
Qed.

Lemma scan_all_pass (p : pattern) (k : nat) (s : jsstring) :
  (k ≤ length s)%nat → scan_all p s k = scan_all p (drop k s) 0.
Proof.
  revert s. induction k as [| k IH]; intros s Hlen; [done |].
  destruct s as [| c s]; [simpl in Hlen; lia |].
  simpl. apply IH. simpl in Hlen. lia.
Qed.

(** The global scan passes over the positions where no match begins. *)
Lemma scan_all_miss (p : pattern) (k : nat) (s : jsstring) :
  (∀ i, (i < k)%nat → ¬ begins_at p s i) → (k ≤ length s)%nat →
  scan_all p s 0 = scan_all p (drop k s) 0.
Proof.
  revert s. induction k as [| k IH]; intros s Hno Hlen; [done |].
  destruct s as [| c s]; [simpl in Hlen; lia |].
  simpl scan_all at 1. rewrite match_at_None.
  - simpl. apply IH; [| simpl in Hlen; lia].
    intros i Hi. apply (Hno (S i)). lia.
  - specialize (Hno 0%nat (Nat.lt_0_succ k)). unfold begins_at in Hno. simpl in Hno.
    destruct (match_atoms p (c :: s)); [| done]. exfalso. eauto.
Qed.

(** A match at the head is recorded, and the scan resumes after it. *)
Lemma scan_all_hit (p : pattern) (s : jsstring) (m : rmatch) :
  match_at p s = Some m → whole m ≠ [] →
  scan_all p s 0 = whole m :: scan_all p (after m) 0.
Proof.
  intros Hm Hne. pose proof (match_at_app _ _ _ Hm) as Hs.
  destruct s as [| c s].
  - destruct (whole m); [done | discriminate].
  - simpl scan_all. rewrite Hm. f_equal.
    destruct (whole m) as [| c' w] eqn:Ew; [done |].
    simpl in Hs. injection Hs as -> ->.
    simpl. rewrite Nat.sub_0_r.
    rewrite scan_all_pass by (rewrite length_app; lia).
    by rewrite drop_app_length.
Qed.

(** [lastIndexOf] when the character occurs: the text splits at its last
    occurrence, whose index is returned. *)
Lemma lastIndexOf_found (c : code_unit) (s : jsstring) :
  c ∈ s →
  ∃ pre post, s = pre ++ (c :: post) ∧ (c ∉ post)
              ∧ lastIndexOf c s = Z.of_nat (length pre).
Proof.
  induction s as [| x s IH]; intros Hin; [by apply elem_of_nil in Hin |].
  destruct (decide (c ∈ s)) as [Hs | Hs].
  - destruct (IH Hs) as (pre & post & -> & Hpost & Hidx).
    exists (x :: pre), post. split; [done |]. split; [done |].
    simpl lastIndexOf. rewrite Hidx.
    destruct (Z.leb_spec 0 (Z.of_nat (length pre))); simpl length; lia.
  - apply elem_of_cons in Hin as [-> | Hin]; [| done].
    exists [], s. split; [done |]. split; [done |].
    simpl lastIndexOf.
    assert (Hneg : lastIndexOf x s = (-1)%Z).
    { clear IH. induction s as [| y s IHs]; [done |].
      apply not_elem_of_cons in Hs as [Hy Hs]. simpl. rewrite (IHs Hs). simpl.
      destruct (N.eqb_spec y x); [congruence | done]. }
    rewrite Hneg. simpl. by rewrite N.eqb_refl.
Qed.

(** [lastIndexOf] when the character does not occur. *)
Lemma lastIndexOf_missing (c : code_unit) (s : jsstring) :
  c ∉ s → lastIndexOf c s = (-1)%Z.
Proof.
  induction s as [| y s IH]; [done |].
  intros [Hy Hs]%not_elem_of_cons. simpl. rewrite (IH Hs). simpl.
  destruct (N.eqb_spec y c); [congruence | done].
Qed.

Lemma substring_after (pre post : jsstring) (c : code_unit) :
  substring (Z.of_nat (length pre) + 1) (pre ++ (c :: post)) = post.
Proof.
  unfold substring.
  replace (Z.to_nat (Z.max 0 (Z.of_nat (length pre) + 1))) with (length pre + 1)%nat by lia.
  rewrite <- drop_drop, drop_app_length. done.
Qed.

End Builtins.

(** ** Parsing: the invitation *)

Section Invitation.

Lemma strip_prefix_spec (w s r : jsstring) :
  strip_prefix w s = Some r ↔ s = w ++ r.
Proof.
  revert s. induction w as [| x w IH]; intros s; simpl.
  - split; [by intros [= ->] | by intros ->].
  - destruct s as [| c s]; [by split |].
    destruct (N.eqb_spec c x) as [-> | Hne].
    + rewrite IH. split; [by intros -> | by intros [= ->]].
    + split; [done | intros [= ? ?]; done].
Qed.

Lemma occursb_spec (w s : jsstring) : occursb w s = true ↔ occurs w s.
Proof.
  induction s as [| c s IH]; simpl.
  - destruct (strip_prefix w []) as [r |] eqn:E.
    + split; [| done]. intros _. apply strip_prefix_spec in E.
      exists [], r. done.
    + split; [done |]. intros (pre & post & H).
      symmetry in H. apply app_eq_nil in H as [_ H].
      apply app_eq_nil in H as [Hw _]. subst w. discriminate E.
  - destruct (strip_prefix w (c :: s)) as [r |] eqn:E.
    + split; [| done]. intros _. apply strip_prefix_spec in E.
      exists [], r. done.
    + rewrite IH. split.
      * intros (pre & post & ->). by exists (c :: pre), post.
      * intros ([| x pre] & post & H).
        -- simpl in H. assert (strip_prefix w (c :: s) = Some post)
             by (by apply strip_prefix_spec). congruence.
        -- injection H as -> ->. by exists pre, post.
Qed.

Lemma not_occurs_spec (w s : jsstring) : occursb w s = false → ¬ occurs w s.
Proof. intros H Ho%occursb_spec. congruence. Qed.

(** A text without a colon has no marker either. *)
Lemma no_colon_no_marker (message : jsstring) :
  COLON ∉ message → ¬ occurs marker message.
Proof.
  intros Hno (pre & post & ->). apply Hno.
  apply elem_of_app. right. apply elem_of_app. left.
  by apply (bool_decide_unpack _).
Qed.

(** Without the marker neither pattern matches: [invitationMatch] is [[]]. *)
Lemma invitationMatch_no_marker (message : jsstring) :
  ¬ occurs marker message → invitationMatch message = [].
Proof.
  intros Hno. unfold invitationMatch, match_first.
  unfold invitation_spaced, invitation_newline, chars.
  by rewrite !exec_None_literal.
Qed.

(** With an empty [invitationMatch] the last resort applies. *)
Lemma invitation_last_resort (message : jsstring) :
  invitationMatch message = [] →
  invitation_of message
  = JString (substring (lastIndexOf COLON message + 1) message).
Proof. unfold invitation_of. by intros ->. Qed.

(** [s.split(sep)] is [[s]] when the separator does not occur. *)
Lemma split_go_absent (sep s cur : jsstring) :
  ¬ occurs sep s → split_go sep s cur 0 = [rev cur ++ s].
Proof.
  revert cur. induction s as [| c s IH]; intros cur Hno; simpl.
  - by rewrite app_nil_r.
  - destruct (strip_prefix sep (c :: s)) as [r |] eqn:E.
    + exfalso. apply Hno. apply strip_prefix_spec in E. by exists [], r.
    + rewrite IH.
      * simpl. by rewrite <- app_assoc.
      * intros (pre & post & ->). apply Hno. by exists (c :: pre), post.
Qed.

Lemma split_absent (sep s : jsstring) : ¬ occurs sep s → split sep s = [s].
Proof. intros H. unfold split. by rewrite split_go_absent. Qed.

End Invitation.

Section Lines.

Lemma dot_star_line (g rest : jsstring) :
  one_line g → line_end rest → dot_star (g ++ rest) = (g, rest).
Proof.
  intros Hg Hrest. induction Hg as [| c g Hc Hg IH]; simpl.
  - destruct Hrest as [-> | (t & s' & -> & Ht)]; [done |].
    simpl. by rewrite Ht.
  - by rewrite Hc, IH.
Qed.

Lemma match_atoms_ext (p : pattern) (s m r x : jsstring) :
  match_atoms p s = Some (m, r) → match_atoms p (s ++ x) = Some (m, r ++ x).
Proof.
  revert s m r. induction p as [| a p IH]; intros s m r; simpl.
  - by intros [= <- <-].
  - destruct s as [| c s]; [discriminate |]. simpl.
    destruct (atom_accepts a c); [| discriminate].
    destruct (match_atoms p s) as [[m' r'] |] eqn:E; [| discriminate].
    intros [= <- <-]. by rewrite (IH _ _ _ E).
Qed.

(** A match at the head of a line: the atoms take [head], the group takes
    the rest of the line. *)
Lemma match_at_line (p : pattern) (head g rest : jsstring) :
  match_atoms p head = Some (head, []) → one_line g → line_end rest →
  match_at p (head ++ g ++ rest) = Some (RMatch (head ++ g) g rest).
Proof.
  intros Hp Hg Hrest. unfold match_at.
  rewrite (match_atoms_ext _ _ _ _ (g ++ rest) Hp). simpl.
  by rewrite dot_star_line.
Qed.

Lemma exec_hit (p : pattern) (s : jsstring) (m : rmatch) :
  match_at p s = Some m → exec p s = Some m.
Proof. intros H. destruct s; simpl; by rewrite H. Qed.

Lemma begins_at_drop (p : pattern) (s : jsstring) (n i : nat) :
  begins_at p (drop n s) i ↔ begins_at p s (n + i).
Proof. unfold begins_at. by rewrite drop_drop. Qed.

End Lines.

Section InvitationClaims.

(** C8.  A text without the marker [Invitation:] that holds a colon: the
    invitation is exactly what follows the last colon of the text, leading
    blanks included. *)
Theorem invitation_after_last_colon (message : jsstring) :
  ¬ occurs marker message → COLON ∈ message →
  ∃ pre post,
    message = pre ++ (COLON :: post) ∧ (COLON ∉ post)
    ∧ invitation_of message = JString post.
Proof.
  intros Hmark Hcolon.
  destruct (lastIndexOf_found COLON message Hcolon) as (pre & post & E & Hpost & Hidx).
  exists pre, post. split; [exact E |]. split; [exact Hpost |].
  rewrite invitation_last_resort by (by apply invitationMatch_no_marker).
  rewrite Hidx, E. by rewrite substring_after.
Qed.

Lemma invitation_after_last_colon_witness :
  ∃ pre post,
    lit "Meet me at the gala: 8pm sharp" = pre ++ (COLON :: post)
    ∧ (COLON ∉ post)
    ∧ invitation_of (lit "Meet me at the gala: 8pm sharp") = JString post.
Proof.
  apply invitation_after_last_colon.
  - apply not_occurs_spec. vm_compute. reflexivity.
  - apply (bool_decide_unpack _). vm_compute. exact I.
Defined.

(** C10.  A text without any colon (hence without the marker): the last
    resort returns the whole text, so a non-empty text never has a missing
    invitation. *)
Theorem invitation_without_colon (message : jsstring) :
  COLON ∉ message →
  invitation_of message = JString message
  ∧ (message ≠ [] → invitation_missing (invitation_of message) = false).
Proof.
  intros Hno.
  assert (E : invitation_of message = JString message).
  { rewrite invitation_last_resort
      by (by apply invitationMatch_no_marker, no_colon_no_marker).
    by rewrite lastIndexOf_missing. }
  split; [exact E |]. intros Hne. rewrite E. simpl.
  unfold jsstring_eqb. by apply bool_decide_eq_false.
Qed.

Lemma invitation_without_colon_witness :
  invitation_of (lit "See you at the gala") = JString (lit "See you at the gala")
  ∧ (lit "See you at the gala" ≠ [] →
     invitation_missing (invitation_of (lit "See you at the gala")) = false).
Proof.
  apply invitation_without_colon.
  apply (bool_decide_unpack _). vm_compute. exact I.
Defined.

(** X4.  Whenever the first marker of the text is followed by a line feed and the
    next line holds no [": "], the first pattern matches across the line
    feed, the split finds no separator, and the invitation is [undefined]. *)
Lemma invitation_next_line_lost (pre line post : jsstring) :
  let message := pre ++ marker ++ [LF] ++ line ++ post in
  (∀ i, (i < length pre)%nat → ¬ begins_at invitation_spaced message i) →
  one_line line → line_end post → ¬ occurs (lit ": ") line →
  invitationMatch message = [marker ++ [LF] ++ line; line]
  ∧ invitation_of message = JUndefined.
Proof.
  intros message Hpre Hline Hpost Hsep.
  assert (Hm : match_first invitation_spaced message
               = Some [marker ++ [LF] ++ line; line]).
  { unfold match_first.
    rewrite (exec_skip _ (length pre)); [| exact Hpre |].
    - unfold message. rewrite drop_app_length.
      rewrite (exec_hit _ _ (RMatch ((marker ++ [LF]) ++ line) line post)).
      + simpl. by rewrite <- ?app_assoc.
      + replace (marker ++ [LF] ++ line ++ post)
          with ((marker ++ [LF]) ++ line ++ post) by (by rewrite <- app_assoc).
        by apply match_at_line.
    - unfold message. rewrite length_app. lia. }
  assert (Him : invitationMatch message = [marker ++ [LF] ++ line; line]).
  { unfold invitationMatch. by rewrite Hm. }
  split; [exact Him |].
  unfold invitation_of. rewrite Him. simpl.
  rewrite split_absent; [done |].
  apply not_occurs_spec. simpl.
  destruct (occursb (lit ": ") line) eqn:E; [| done].
  apply occursb_spec in E. done.
Qed.

(** C2.  The invitation on the line after the marker is not extracted: on
    [Caption[1]: A], [Invitation:], [Come!] (three lines) the first pattern
    matches across the line feed and the invitation is [undefined]. *)
Theorem invitation_on_next_line_undefined :
  let message :=
    lit "Caption[1]: A" ++ [LF] ++ lit "Invitation:" ++ [LF] ++ lit "Come!" in
  invitationMatch message = [lit "Invitation:" ++ [LF] ++ lit "Come!"; lit "Come!"]
  ∧ invitation_of message = JUndefined
  ∧ invitation_missing (invitation_of message) = true.
Proof. vm_compute. done. Qed.

End InvitationClaims.

(** ** Parsing: the captions *)

Section CaptionClaims.

(** C3.  The text of a caption is the piece between the first and the second
    [": "] of the matched line, not everything after the first: on
    [Caption[1]: A: B] it is [A]. *)
Theorem caption_text_truncated :
  captionMatches (lit "Caption[1]: A: B") = [lit "Caption[1]: A: B"]
  ∧ split (lit ": ") (lit "Caption[1]: A: B")
    = [lit "Caption[1]"; lit "A"; lit "B"]
  ∧ captions_of (lit "Caption[1]: A: B") = [ {| text := JString (lit "A") |} ].
Proof. vm_compute. done. Qed.

Lemma begins_at_starts (p : pattern) (s : jsstring) (i n : nat) :
  begins_at p s i → (i ≤ length s)%nat → (n + i)%nat ∈ starts_from p s n.
Proof.
  revert i n. induction s as [| c s IH]; intros i n H Hlen.
  - simpl in Hlen. assert (i = 0)%nat as -> by lia.
    unfold begins_at in H. simpl in H. simpl.
    destruct (match_atoms p []); [| by destruct H].
    rewrite Nat.add_0_r. by left.
  - destruct i as [| i].
    + unfold begins_at in H. simpl in H. simpl starts_from.
      destruct (match_atoms p (c :: s)); [| by destruct H].
      rewrite Nat.add_0_r. by left.
    + simpl starts_from. apply elem_of_app. right.
      replace (n + S i)%nat with (S n + i)%nat by lia.
      apply IH; [exact H | simpl in Hlen; lia].
Qed.

(** For a pattern that needs at least one character, [starts_from] lists
    every position where a match begins. *)
Lemma begins_at_elem (p : pattern) (s : jsstring) (i : nat) :
  match_atoms p [] = None → begins_at p s i → i ∈ starts_from p s 0.
Proof.
  intros Hp H. destruct (decide (i ≤ length s)%nat) as [Hle | Hgt].
  - by apply (begins_at_starts p s i 0).
  - unfold begins_at in H. rewrite drop_ge in H by lia.
    rewrite Hp in H. by destruct H.
Qed.

(** The first match of the global scan: it begins at the first position
    where the atoms match. *)
Lemma scan_all_at (p : pattern) (s : jsstring) (k : nat) (m : rmatch) :
  (∀ i, (i < k)%nat → ¬ begins_at p s i) → (k ≤ length s)%nat →
  match_at p (drop k s) = Some m → whole m ≠ [] →
  scan_all p s 0 = whole m :: scan_all p (after m) 0.
Proof.
  intros Hno Hk Hm Hne. rewrite (scan_all_miss p k s Hno Hk).
  by apply scan_all_hit.
Qed.

Lemma scan_all_none (p : pattern) (s : jsstring) :
  (∀ i, (i < length s)%nat → ¬ begins_at p s i) → match_at p [] = None →
  scan_all p s 0 = [].
Proof.
  intros Hno Hp. rewrite (scan_all_miss p (length s) s Hno (Nat.le_refl _)).
  rewrite drop_all. simpl. by rewrite Hp.
Qed.

Lemma breaks_app (s r : jsstring) : breaks s → line_end (s ++ r).
Proof. intros (t & s' & -> & Ht). right. by exists t, (s' ++ r). Qed.

Lemma drop_app_exact (a b : jsstring) (n : nat) :
  n = length a → drop n (a ++ b) = b.
Proof. intros ->. apply drop_app_length. Qed.

Lemma drop_after (s line rest : jsstring) (p : nat) :
  drop p s = line ++ rest → drop (p + length line) s = rest.
Proof. intros H. by rewrite <- drop_drop, H, drop_app_length. Qed.

Lemma drop_nonempty (s t : jsstring) (p : nat) :
  drop p s = t → t ≠ [] → (p < length s)%nat.
Proof.
  intros H Ht. destruct (decide (p < length s)%nat); [done |].
  rewrite drop_ge in H by lia. by subst t.
Qed.

(** C7 (as amended).  A text in which the lines [Caption[1]: A],
    [Caption[2]: B] and [Invitation: Come!] stand, each ended by a line
    terminator or the end of the text, the first caption line before the
    second and the invitation line anywhere, in which the bracketed caption
    pattern matches at the two caption lines and nowhere else, and the
    invitation pattern nowhere before the invitation line: the captions are
    [A] and [B], in this order, and the invitation is [Come!]. *)
Theorem parse_example_lines (message : jsstring) (p1 p2 p3 : nat) :
  line_at line1 message p1 → line_at line2 message p2 →
  line_at line3 message p3 →
  (p1 + length line1 ≤ p2)%nat →
  (∀ i, begins_at caption_bracketed message i → i = p1 ∨ i = p2) →
  (∀ i, begins_at invitation_spaced message i → (p3 ≤ i)%nat) →
  captions_of message = captions_A_B
  ∧ invitation_of message = JString (lit "Come!").
Proof.
  intros (r1 & D1 & E1) (r2 & D2 & E2) (r3 & D3 & E3) Hle Hc Hi.
  assert (L1 : length line1 = 13%nat) by reflexivity.
  assert (L2 : length line2 = 13%nat) by reflexivity.
  pose proof (drop_after _ _ _ _ D1) as A1.
  pose proof (drop_after _ _ _ _ D2) as A2.
  assert (B1 : (p1 < length message)%nat) by (by apply (drop_nonempty _ _ _ D1)).
  assert (B2 : (p2 < length message)%nat) by (by apply (drop_nonempty _ _ _ D2)).
  assert (B3 : (p3 < length message)%nat) by (by apply (drop_nonempty _ _ _ D3)).
  assert (M1 : match_at caption_bracketed (line1 ++ r1)
               = Some (RMatch line1 (lit "A") r1)).
  { apply (match_at_line caption_bracketed (lit "Caption[1]: ") (lit "A"));
      [reflexivity | by repeat constructor | done]. }
  assert (M2 : match_at caption_bracketed (line2 ++ r2)
               = Some (RMatch line2 (lit "B") r2)).
  { apply (match_at_line caption_bracketed (lit "Caption[2]: ") (lit "B"));
      [reflexivity | by repeat constructor | done]. }
  assert (M3 : match_at invitation_spaced (line3 ++ r3)
               = Some (RMatch line3 (lit "Come!") r3)).
  { apply (match_at_line invitation_spaced (lit "Invitation: ") (lit "Come!"));
      [reflexivity | by repeat constructor | done]. }
  split.
  - assert (Hscan : scan_all caption_bracketed message 0 = [line1; line2]).
    { rewrite (scan_all_at _ message p1 (RMatch line1 (lit "A") r1));
        [| | lia | rewrite D1; exact M1 | done].
      2:{ intros i Hlt Hb. destruct (Hc i Hb); lia. }
      simpl after. simpl whole. f_equal.
      assert (Hlen : (p2 - (p1 + length line1) ≤ length r1)%nat).
      { rewrite <- A1, length_drop. lia. }
      assert (Hdrop : drop (p2 - (p1 + length line1)) r1 = line2 ++ r2).
      { rewrite <- A1, drop_drop, <- D2. f_equal. lia. }
      rewrite (scan_all_at _ r1 (p2 - (p1 + length line1))
                 (RMatch line2 (lit "B") r2));
        [| | exact Hlen | rewrite Hdrop; exact M2 | done].
      2:{ intros i Hlt Hb. rewrite <- A1 in Hb. apply begins_at_drop in Hb.
          destruct (Hc _ Hb); lia. }
      simpl after. simpl whole. f_equal.
      apply scan_all_none; [| reflexivity].
      intros i Hlt Hb. rewrite <- A2 in Hb. apply begins_at_drop in Hb.
      destruct (Hc _ Hb); lia. }
    unfold captions_of, captionMatches, match_global. rewrite Hscan.
    reflexivity.
  - assert (Hex : exec invitation_spaced message
                  = Some (RMatch line3 (lit "Come!") r3)).
    { rewrite (exec_skip _ p3); [| | lia].
      - rewrite D3. by apply exec_hit.
      - intros i Hlt Hb. specialize (Hi i Hb). lia. }
    unfold invitation_of, invitationMatch, match_first. rewrite Hex.
    reflexivity.
Qed.

(** The positions where a pattern begins in a given text, by computation. *)
Ltac positions H :=
  apply begins_at_elem in H; [| reflexivity]; vm_compute in H;
  repeat (apply elem_of_cons in H as [-> | H]; [simpl; lia |]);
  by apply elem_of_nil in H.

Lemma parse_example_lines_witness :
  (captions_of sample_message = captions_A_B
   ∧ invitation_of sample_message = JString (lit "Come!"))
  ∧ (captions_of invitation_first_message = captions_A_B
     ∧ invitation_of invitation_first_message = JString (lit "Come!")).
Proof.
  split.
  - apply (parse_example_lines sample_message 0 14 28).
    + exists ([LF] ++ line2 ++ [LF] ++ line3). split; [reflexivity |].
      right. by exists LF, (line2 ++ [LF] ++ line3).
    + exists ([LF] ++ line3). split; [reflexivity |]. right. by exists LF, line3.
    + exists []. split; [reflexivity | by left].
    + simpl. lia.
    + intros i H. positions H.
    + intros i H. positions H.
  - apply (parse_example_lines invitation_first_message 18 32 0).
    + exists ([LF] ++ line2). split; [reflexivity |]. right. by exists LF, line2.
    + exists []. split; [reflexivity | by left].
    + exists ([LF] ++ line1 ++ [LF] ++ line2). split; [reflexivity |].
      right. by exists LF, (line1 ++ [LF] ++ line2).
    + simpl. lia.
    + intros i H. positions H.
    + intros i H. positions H.
Defined.

(** C7 (as stated) fails: a text may hold the three lines and more.  With a
    further line [Caption[3]: C] the parser yields three captions. *)
Lemma parse_extra_caption_line :
  ¬ (∀ message : jsstring,
       has_line line1 message → has_line line2 message →
       has_line line3 message →
       captions_of message = captions_A_B
       ∧ invitation_of message = JString (lit "Come!")).
Proof.
  intros H.
  destruct (H (line1 ++ [LF] ++ line2 ++ [LF]
               ++ lit "Caption[3]: C" ++ [LF] ++ line3)) as [Hcap _].
  - exists [], ([LF] ++ line2 ++ [LF] ++ lit "Caption[3]: C" ++ [LF] ++ line3).
    split; [reflexivity |]. split; [by left |]. right. by eexists _, _.
  - exists (line1 ++ [LF]), ([LF] ++ lit "Caption[3]: C" ++ [LF] ++ line3).
    split; [reflexivity |]. split.
    + right. by exists line1, LF.
    + right. by eexists _, _.
  - exists (line1 ++ [LF] ++ line2 ++ [LF] ++ lit "Caption[3]: C" ++ [LF]), [].
    split; [reflexivity |]. split.
    + right. by exists (line1 ++ [LF] ++ line2 ++ [LF] ++ lit "Caption[3]: C"), LF.
    + by left.
  - vm_compute in Hcap. discriminate Hcap.
Qed.

End CaptionClaims.

(** ** Further properties of the parser *)

Section ParserPaths.

Lemma exec_None_inv (p : pattern) (s : jsstring) :
  exec p s = None → ∀ pre suf, s = pre ++ suf → match_at p suf = None.
Proof.
  induction s as [| c s IH]; simpl.
  - destruct (match_at p []) eqn:E; [discriminate |].
    intros _ pre suf H. symmetry in H. apply app_eq_nil in H as [_ ->]. done.
  - destruct (match_at p (c :: s)) eqn:E; [discriminate |].
    intros H [| x pre] suf Hs.
    + simpl in Hs. by subst suf.
    + injection Hs as -> ->. by apply (IH H pre).
Qed.

(** Atoms that accept more match wherever the narrower ones do. *)
Lemma match_atoms_weaken (p q : pattern) (s m r : jsstring) :
  Forall2 (λ a b, ∀ c, atom_accepts a c = true → atom_accepts b c = true) p q →
  match_atoms p s = Some (m, r) → match_atoms q s = Some (m, r).
Proof.
  intros Hpq. revert s m r.
  induction Hpq as [| a b p q Hab Hpq IH]; intros s m r; simpl; [done |].
  destruct s as [| c s]; [done |].
  destruct (atom_accepts a c) eqn:Ea; [| discriminate].
  rewrite (Hab c Ea).
  destruct (match_atoms p s) as [[m' r'] |] eqn:E; [| discriminate].
  by rewrite (IH _ _ _ E).
Qed.

Lemma newline_is_spaced (s m r : jsstring) :
  match_atoms invitation_newline s = Some (m, r) →
  match_atoms invitation_spaced s = Some (m, r).
Proof.
  apply match_atoms_weaken. unfold invitation_newline, invitation_spaced.
  apply Forall2_app.
  - apply Forall_Forall2_diag, Forall_forall. done.
  - constructor; [| constructor]. intros c Hc. simpl in *.
    apply N.eqb_eq in Hc as ->. reflexivity.
Qed.

(** X2.  The second invitation pattern is never the one that provides the match:
    wherever it matches, the first one matches too, with [\s] on the line
    feed. *)
Lemma invitation_newline_never_used (message : jsstring) :
  invitationMatch message
  = default [] (match_first invitation_spaced message).
Proof.
  unfold invitationMatch, match_first.
  destruct (exec invitation_spaced message) as [m |] eqn:E; [done |].
  destruct (exec invitation_newline message) as [m' |] eqn:E'; [| done].
  exfalso. apply exec_Some_inv in E' as (pre & suf & Hs & Hm).
  pose proof (exec_None_inv _ _ E pre suf Hs) as Hn.
  unfold match_at in Hm, Hn.
  destruct (match_atoms invitation_newline suf) as [[x r] |] eqn:Ex; [| discriminate].
  rewrite (newline_is_spaced _ _ _ Ex) in Hn.
  by destruct (dot_star r).
Qed.

(** X3.  The invitation on the line of the first marker, after a blank: it
    is extracted whole when it holds no [": "]. *)
Lemma invitation_same_line (pre g post : jsstring) :
  let message := pre ++ lit "Invitation: " ++ g ++ post in
  (∀ i, (i < length pre)%nat → ¬ begins_at invitation_spaced message i) →
  one_line g → line_end post → ¬ occurs (lit ": ") g →
  invitation_of message = JString g.
Proof.
  intros message Hpre Hg Hpost Hsep.
  assert (Hm : exec invitation_spaced message
               = Some (RMatch (lit "Invitation: " ++ g) g post)).
  { rewrite (exec_skip _ (length pre)); [| exact Hpre |].
    - unfold message. rewrite drop_app_length. apply exec_hit.
      by apply match_at_line.
    - unfold message. rewrite length_app. lia. }
  unfold invitation_of, invitationMatch, match_first. rewrite Hm.
  simpl. unfold split. simpl. by rewrite split_go_absent.
Qed.

Lemma invitation_same_line_witness :
  invitation_of ((line1 ++ [LF]) ++ lit "Invitation: " ++ lit "See you at 8 #gala" ++ [])
  = JString (lit "See you at 8 #gala").
Proof.
  apply (invitation_same_line (line1 ++ [LF]) (lit "See you at 8 #gala") []).
  - intros i Hi H. apply begins_at_elem in H; [| reflexivity].
    vm_compute in H.
    apply elem_of_cons in H as [-> | H]; [simpl in Hi; lia |].
    by apply elem_of_nil in H.
  - unfold one_line. apply Forall_forall. intros c Hc.
    vm_compute in Hc. repeat (apply elem_of_cons in Hc as [-> | Hc]; [reflexivity |]).
    by apply elem_of_nil in Hc.
  - by left.
  - apply not_occurs_spec. vm_compute. reflexivity.
Defined.

Lemma invitation_next_line_lost_witness :
  invitationMatch ((line1 ++ [LF]) ++ marker ++ [LF] ++ lit "Come!" ++ [])
  = [marker ++ [LF] ++ lit "Come!"; lit "Come!"]
  ∧ invitation_of ((line1 ++ [LF]) ++ marker ++ [LF] ++ lit "Come!" ++ [])
    = JUndefined.
Proof.
  apply (invitation_next_line_lost (line1 ++ [LF]) (lit "Come!") []).
  - intros i Hi H. apply begins_at_elem in H; [| reflexivity].
    vm_compute in H.
    apply elem_of_cons in H as [-> | H]; [simpl in Hi; lia |].
    by apply elem_of_nil in H.
  - by repeat constructor.
  - by left.
  - apply not_occurs_spec. vm_compute. reflexivity.
Defined.

Lemma split_go_miss (sep s cur : jsstring) (c : code_unit) :
  strip_prefix sep (c :: s) = None →
  split_go sep (c :: s) cur 0 = split_go sep s (c :: cur) 0.
Proof. simpl. by intros ->. Qed.

(** X5.  The text of a bracketed caption without [": "] is the caption,
    whole. *)
Lemma caption_text_whole (d : code_unit) (g : jsstring) :
  is_digit d = true → ¬ occurs (lit ": ") g →
  captionText (lit "Caption[" ++ [d] ++ lit "]: " ++ g) = JString g.
Proof.
  intros Hd Hsep. unfold captionText, split.
  change (split_go (lit ": ") (lit "Caption[" ++ [d] ++ lit "]: " ++ g) [] 0)
    with (split_go (lit ": ") (d :: lit "]: " ++ g) (rev (lit "Caption[")) 0).
  rewrite split_go_miss.
  - change (split_go (lit ": ") (lit "]: " ++ g) (d :: rev (lit "Caption[")) 0)
      with (rev (93%N :: d :: rev (lit "Caption["))
            :: split_go (lit ": ") g [] 0).
    by rewrite split_go_absent.
  - change (strip_prefix (lit ": ") (d :: lit "]: " ++ g))
      with (if (d =? 58)%N then strip_prefix (lit " ") (lit "]: " ++ g) else None).
    destruct (N.eqb_spec d 58) as [-> |]; [discriminate Hd | done].
Qed.

Lemma caption_text_whole_witness :
  captionText (lit "Caption[" ++ [50%N] ++ lit "]: " ++ lit "When she says yes")
  = JString (lit "When she says yes").
Proof.
  apply (caption_text_whole 50%N (lit "When she says yes")).
  - reflexivity.
  - apply not_occurs_spec. vm_compute. reflexivity.
Defined.

(** Up to the first [": "] the split reads one piece, and starts the next
    piece after the separator. *)
Lemma split_go_first (a b cur : jsstring) :
  ¬ occurs (lit ": ") a →
  split_go (lit ": ") (a ++ lit ": " ++ b) cur 0
  = (rev cur ++ a) :: split_go (lit ": ") b [] 0.
Proof.
  revert cur. induction a as [| c a IH]; intros cur Hno.
  - simpl. by rewrite app_nil_r.
  - assert (Hmiss : strip_prefix (lit ": ") (c :: a ++ lit ": " ++ b) = None).
    { change (strip_prefix (lit ": ") (c :: a ++ lit ": " ++ b))
        with (if (c =? 58)%N
              then strip_prefix (lit " ") (a ++ lit ": " ++ b) else None).
      destruct (N.eqb_spec c 58) as [-> |]; [| done].
      destruct a as [| x a]; [done |].
      change (strip_prefix (lit " ") ((x :: a) ++ lit ": " ++ b))
        with (if (x =? 32)%N then Some (a ++ lit ": " ++ b) else None).
      destruct (N.eqb_spec x 32) as [-> |]; [| done].
      exfalso. apply Hno. by exists [], a. }
    change ((c :: a) ++ lit ": " ++ b) with (c :: a ++ lit ": " ++ b).
    rewrite (split_go_miss _ _ _ _ Hmiss), IH.
    + simpl. by rewrite <- app_assoc.
    + intros (pre & post & ->). apply Hno. by exists (c :: pre), post.
Qed.

(** X6.  The text of a bracketed caption that holds [": "]: what stands before
    it, the rest of the caption being dropped. *)
Lemma caption_text_first_piece (d : code_unit) (a b : jsstring) :
  is_digit d = true → ¬ occurs (lit ": ") a →
  captionText (lit "Caption[" ++ [d] ++ lit "]: " ++ a ++ lit ": " ++ b)
  = JString a.
Proof.
  intros Hd Hsep. unfold captionText, split.
  change (split_go (lit ": ")
            (lit "Caption[" ++ [d] ++ lit "]: " ++ a ++ lit ": " ++ b) [] 0)
    with (split_go (lit ": ") (d :: lit "]: " ++ a ++ lit ": " ++ b)
            (rev (lit "Caption[")) 0).
  rewrite split_go_miss.
  - change (split_go (lit ": ") (lit "]: " ++ a ++ lit ": " ++ b)
              (d :: rev (lit "Caption[")) 0)
      with (rev (93%N :: d :: rev (lit "Caption["))
            :: split_go (lit ": ") (a ++ lit ": " ++ b) [] 0).
    by rewrite split_go_first.
  - change (strip_prefix (lit ": ") (d :: lit "]: " ++ a ++ lit ": " ++ b))
      with (if (d =? 58)%N
            then strip_prefix (lit " ") (lit "]: " ++ a ++ lit ": " ++ b)
            else None).
    destruct (N.eqb_spec d 58) as [-> |]; [discriminate Hd | done].
Qed.

Lemma caption_text_first_piece_witness :
  captionText (lit "Caption[" ++ [49%N] ++ lit "]: "
               ++ lit "Me" ++ lit ": " ++ lit "asking you to the gala")
  = JString (lit "Me").
Proof.
  apply (caption_text_first_piece 49%N (lit "Me") (lit "asking you to the gala")).
  - reflexivity.
  - apply not_occurs_spec. vm_compute. reflexivity.
Defined.

(** X7.  Every caption pattern starts with the word [Caption]: without it no
    caption is found. *)
Lemma no_caption_word_no_captions (message : jsstring) :
  ¬ occurs (lit "Caption") message → captions_of message = [].
Proof.
  intros Hno.
  assert (Hscan : ∀ q, scan_all (chars "Caption" ++ q) message 0 = []).
  { intros q. apply scan_all_none; [| reflexivity].
    intros i _ Hb. apply Hno. unfold begins_at, chars in Hb.
    apply match_atoms_literal in Hb as [t Ht].
    exists (take i message), t. by rewrite <- Ht, take_drop. }
  unfold captions_of, captionMatches, match_global.
  unfold caption_bracketed, caption_spaced, caption_unspaced.
  change (chars "Caption[") with (chars "Caption" ++ [Chr 91%N]).
  rewrite <- !app_assoc. by rewrite !Hscan.
Qed.

Lemma no_caption_word_no_captions_witness :
  captions_of (lit "Invitation: Come to the gala!") = [].
Proof.
  apply no_caption_word_no_captions.
  apply not_occurs_spec. vm_compute. reflexivity.
Defined.

End ParserPaths.
(** ** The request pipeline *)

Section Pipeline.

Lemma invitation_missing_spec (v : jsval) :
  invitation_missing v = true ↔ missing v.
Proof.
  unfold missing. destruct v as [| | s]; simpl.
  - split; [by left | done].
  - split; [by right; left | done].
  - unfold jsstring_eqb. rewrite bool_decide_eq_true. split.
    + intros ->. by right; right.
    + intros [? | [? | [= ->]]]; done.
Qed.

Lemma jsstring_eqb_refl (s : jsstring) : jsstring_eqb s s = true.
Proof. unfold jsstring_eqb. by apply bool_decide_eq_true. Qed.

Lemma generation_failed_spec (e : env) (message : jsstring) :
  generation_failed e message = true
  ↔ ok (imgflip_response e) = false ∨ captions_of message = []
    ∨ missing (invitation_of message).
Proof.
  unfold generation_failed.
  rewrite !orb_true_iff, negb_true_iff, invitation_missing_spec, Nat.eqb_eq.
  rewrite length_zero_iff_nil. tauto.
Qed.

(** Entering the handler on a POST request whose selection is known. *)
Ltac enter_handler Hpost Hmemes Hsel :=
  unfold run, handler, do_while, createChatCompletion;
  rewrite Hpost, jsstring_eqb_refl, Hmemes, Hsel.

(** Running the state operations of the handler. *)
Ltac run_effects :=
  cbv beta iota zeta delta
    [mbind M_bind mret M_ret respond return_ halt emit deref
     fetch_caption_image getCountFromServer setDoc
     init store res trace app].

Lemma run_method_not_allowed (e : env) (db : gmap jsstring MemeDoc) :
  req_method e ≠ lit "POST" →
  run e db
  = (Completed,
     {| store := db;
        res := Some (405%nat, error_body (lit "This type of request is not supported."));
        trace := [] |}).
Proof.
  intros Hm. unfold run, handler, jsstring_eqb.
  by rewrite bool_decide_eq_false_2.
Qed.

Lemma run_no_catalog (e : env) (db : gmap jsstring MemeDoc) :
  req_method e = lit "POST" → memes_json e = None →
  run e db
  = (Completed,
     {| store := db;
        res := Some (500%nat, error_body (lit "Unable to retrieve memes."));
        trace := [] |}).
Proof.
  intros Hpost Hmemes. unfold run, handler.
  by rewrite Hpost, jsstring_eqb_refl, Hmemes.
Qed.

Lemma run_still_looping (e : env) (db : gmap jsstring MemeDoc)
    (memes : list Meme.t) :
  req_method e = lit "POST" → memes_json e = Some memes →
  select memes (random_draws e) = StillLooping →
  run e db = (Loops, init db).
Proof. intros Hpost Hmemes Hsel. by enter_handler Hpost Hmemes Hsel. Qed.

Lemma run_undefined_meme (e : env) (db : gmap jsstring MemeDoc)
    (memes : list Meme.t) :
  req_method e = lit "POST" → memes_json e = Some memes →
  select memes (random_draws e) = Chosen None →
  run e db = (Threw, init db).
Proof. intros Hpost Hmemes Hsel. by enter_handler Hpost Hmemes Hsel. Qed.

Lemma run_no_content (e : env) (db : gmap jsstring MemeDoc)
    (memes : list Meme.t) (m : Meme.t) :
  req_method e = lit "POST" → memes_json e = Some memes →
  select memes (random_draws e) = Chosen (Some m) →
  missing (completion_content e) →
  run e db
  = (Completed,
     {| store := db; res := Some (500%nat, unable_to_contact);
        trace := [chat_event m] |}).
Proof.
  intros Hpost Hmemes Hsel Hmiss. enter_handler Hpost Hmemes Hsel.
  destruct Hmiss as [-> | [-> | ->]]; reflexivity.
Qed.

Lemma run_generation_failed (e : env) (db : gmap jsstring MemeDoc)
    (memes : list Meme.t) (m : Meme.t) (message : jsstring) :
  req_method e = lit "POST" → memes_json e = Some memes →
  select memes (random_draws e) = Chosen (Some m) →
  completion_content e = JString message → message ≠ [] →
  generation_failed e message = true →
  run e db
  = (Completed,
     {| store := db; res := Some (500%nat, unable_to_generate);
        trace := [chat_event m; render_event e m message;
                  diagnostics_event e m message] |}).
Proof.
  intros Hpost Hmemes Hsel Hcontent Hne Hfail. enter_handler Hpost Hmemes Hsel.
  rewrite Hcontent. destruct message as [| c message]; [done |].
  run_effects. unfold generation_failed in Hfail. rewrite Hfail.
  reflexivity.
Qed.

Lemma run_success (e : env) (db : gmap jsstring MemeDoc)
    (memes : list Meme.t) (m : Meme.t) (message : jsstring) :
  req_method e = lit "POST" → memes_json e = Some memes →
  select memes (random_draws e) = Chosen (Some m) →
  completion_content e = JString message → message ≠ [] →
  generation_failed e message = false →
  run e db
  = (Completed,
     {| store := <[uuid e := new_doc e m message (size db)]> db;
        res := Some (201%nat, success_body e message);
        trace := [chat_event m; render_event e m message; GetCount;
                  SetDoc (uuid e) (new_doc e m message (size db))] |}).
Proof.
  intros Hpost Hmemes Hsel Hcontent Hne Hfail. enter_handler Hpost Hmemes Hsel.
  rewrite Hcontent. destruct message as [| c message]; [done |].
  run_effects. unfold generation_failed in Hfail. rewrite Hfail.
  reflexivity.
Qed.

(** Every request goes one of these ways. *)
Lemma run_path (e : env) (db : gmap jsstring MemeDoc) :
  request_path e db (run e db).
Proof.
  destruct (decide (req_method e = lit "POST")) as [Hpost | Hpost].
  2:{ rewrite run_method_not_allowed by done. by constructor. }
  destruct (memes_json e) as [memes |] eqn:Hmemes.
  2:{ rewrite run_no_catalog by done. by constructor. }
  destruct (select memes (random_draws e)) as [[m |] |] eqn:Hsel.
  - destruct (completion_content e) as [| | [| c message]] eqn:Hcontent.
    + rewrite (run_no_content e db memes m) by (done || (by left)).
      eapply path_no_content; try done. by left.
    + rewrite (run_no_content e db memes m) by (done || (by right; left)).
      eapply path_no_content; try done. by right; left.
    + rewrite (run_no_content e db memes m) by (done || (by right; right)).
      eapply path_no_content; try done. by right; right.
    + destruct (generation_failed e (c :: message)) eqn:Hfail.
      * rewrite (run_generation_failed e db memes m (c :: message)) by done.
        by eapply path_generation_failed.
      * rewrite (run_success e db memes m (c :: message)) by done.
        by eapply path_success.
  - rewrite (run_undefined_meme e db memes) by done.
    by eapply path_undefined_meme.
  - rewrite (run_still_looping e db memes) by done.
    by eapply path_still_looping.
Qed.

(** X1.  A request that is not a POST is answered 405 with the error message
    of the handler, and reaches no collaborator. *)
Lemma not_post_405 (e : env) (db : gmap jsstring MemeDoc) :
  req_method e ≠ lit "POST" →
  (run e db).1 = Completed
  ∧ res (run e db).2
    = Some (405%nat, error_body (lit "This type of request is not supported."))
  ∧ trace (run e db).2 = []
  ∧ store (run e db).2 = db.
Proof.
  intros Hm. rewrite run_method_not_allowed by done. done.
Qed.

Lemma not_post_405_witness :
  let e :=
    {| req_method := lit "GET"; memes_json := Some [drake];
       random_draws := []; completion_content := JUndefined;
       IMGFLIP_USERNAME := JUndefined; IMGFLIP_PASSWORD := JUndefined;
       imgflip_response := sample_response true;
       uuid := []; now := 0 |} in
  (run e ∅).1 = Completed
  ∧ res (run e ∅).2
    = Some (405%nat, error_body (lit "This type of request is not supported."))
  ∧ trace (run e ∅).2 = []
  ∧ store (run e ∅).2 = ∅.
Proof. apply not_post_405. simpl. discriminate. Defined.

End Pipeline.

Section PipelineClaims.

(** C4.  When the content of the chat completion is absent ([undefined] or
    [null]) or the empty string, the image API is not called and the store is
    neither counted nor written; a request that got as far as the chat call
    (a POST, on a catalog from which an entry was selected) is answered 500
    with an error message, the chat call being the only call made. *)
Theorem no_content_500 (e : env) (db : gmap jsstring MemeDoc) :
  missing (completion_content e) →
  Forall (λ ev, is_render ev = false ∧ is_store_op ev = false)
    (trace (run e db).2)
  ∧ store (run e db).2 = db
  ∧ (∀ memes m,
       req_method e = lit "POST" → memes_json e = Some memes →
       select memes (random_draws e) = Chosen (Some m) →
       (run e db).1 = Completed
       ∧ res (run e db).2 = Some (500%nat, unable_to_contact)
       ∧ trace (run e db).2 = [chat_event m]).
Proof.
  intros Hmiss. split; [| split].
  - destruct (run_path e db) as [| | | | | ? ? ? ? ? ? Hc Hne | ? ? ? ? ? ? Hc Hne];
      simpl; try (by repeat constructor).
    + rewrite Hc in Hmiss. by destruct Hmiss as [? | [? | [= ?]]].
    + rewrite Hc in Hmiss. by destruct Hmiss as [? | [? | [= ?]]].
  - destruct (run_path e db) as [| | | | | | ? ? ? ? ? ? Hc Hne]; simpl; try done.
    rewrite Hc in Hmiss. by destruct Hmiss as [? | [? | [= ?]]].
  - intros memes m Hpost Hmemes Hsel.
    by rewrite (run_no_content e db memes m Hpost Hmemes Hsel Hmiss).
Qed.

Lemma no_content_500_witness :
  let e := sample_request [two_buttons; drake] (JString []) true in
  Forall (λ ev, is_render ev = false ∧ is_store_op ev = false)
    (trace (run e ∅).2)
  ∧ store (run e ∅).2 = ∅
  ∧ (∀ memes m,
       req_method e = lit "POST" → memes_json e = Some memes →
       select memes (random_draws e) = Chosen (Some m) →
       (run e ∅).1 = Completed
       ∧ res (run e ∅).2 = Some (500%nat, unable_to_contact)
       ∧ trace (run e ∅).2 = [chat_event m]).
Proof.
  apply (no_content_500 (sample_request [two_buttons; drake] (JString []) true) ∅).
  simpl. by right; right.
Defined.

(** C5.  On a request that reached the render call (a POST, an entry
    selected, a non-empty answer of the model): when the render response is
    not [ok], or no caption was parsed, or the parsed invitation is absent or
    empty, the answer is 500 and the store is as it was, neither counted nor
    written. *)
Theorem failed_generation_500 (e : env) (db : gmap jsstring MemeDoc)
    (memes : list Meme.t) (m : Meme.t) (message : jsstring) :
  req_method e = lit "POST" → memes_json e = Some memes →
  select memes (random_draws e) = Chosen (Some m) →
  completion_content e = JString message → message ≠ [] →
  ok (imgflip_response e) = false ∨ captions_of message = []
  ∨ missing (invitation_of message) →
  (run e db).1 = Completed
  ∧ res (run e db).2 = Some (500%nat, unable_to_generate)
  ∧ store (run e db).2 = db
  ∧ Forall (λ ev, is_store_op ev = false) (trace (run e db).2).
Proof.
  intros Hpost Hmemes Hsel Hcontent Hne Hfail.
  apply generation_failed_spec in Hfail.
  rewrite (run_generation_failed e db memes m message) by done.
  simpl. repeat split; by repeat constructor.
Qed.

Lemma failed_generation_500_witness :
  let e := sample_request [two_buttons; drake] (JString sample_message) false in
  (run e ∅).1 = Completed
  ∧ res (run e ∅).2 = Some (500%nat, unable_to_generate)
  ∧ store (run e ∅).2 = ∅
  ∧ Forall (λ ev, is_store_op ev = false) (trace (run e ∅).2).
Proof.
  apply (failed_generation_500
           (sample_request [two_buttons; drake] (JString sample_message) false)
           ∅ [two_buttons; drake] drake sample_message).
  - reflexivity.
  - reflexivity.
  - vm_compute. reflexivity.
  - reflexivity.
  - discriminate.
  - left. reflexivity.
Defined.



(** C9.  On an empty catalog the loop leaves at its first round with
    [undefined], and the handler throws a [TypeError] at the first property
    it reads: no response is sent, no call is made.  The selection returns
    [undefined] on some sequence of draws exactly when the catalog is empty:
    on a non-empty catalog it never does. *)
Theorem empty_catalog_throws :
  (∀ (e : env) (db : gmap jsstring MemeDoc) (r : Q) (draws : list Q),
     req_method e = lit "POST" → memes_json e = Some [] →
     random_draws e = r :: draws →
     select [] (random_draws e) = Chosen None
     ∧ run e db = (Threw, init db)
     ∧ res (run e db).2 = None)
  ∧ (∀ memes : list Meme.t,
       memes ≠ []
       ↔ (∀ draws, Forall unit_draw draws → select memes draws ≠ Chosen None)).
Proof.
  split.
  - intros e db r draws Hpost Hmemes Hdraws.
    assert (Hsel : select [] (random_draws e) = Chosen None)
      by (rewrite Hdraws; apply select_empty).
    split; [exact Hsel |].
    by rewrite (run_undefined_meme e db [] Hpost Hmemes Hsel).
  - intros memes. split.
    + intros Hne draws Hdraws Hsel.
      by destruct (select_sound memes draws None Hne Hdraws Hsel) as (m & ? & _).
    + intros H ->. apply (H [(1 # 4)%Q]).
      * repeat constructor; unfold Qle, Qlt; simpl; lia.
      * reflexivity.
Qed.

Lemma empty_catalog_throws_witness :
  let e := sample_request [] (JString sample_message) true in
  select [] (random_draws e) = Chosen None
  ∧ run e ∅ = (Threw, init ∅)
  ∧ res (run e ∅).2 = None.
Proof.
  apply (proj1 empty_catalog_throws
           (sample_request [] (JString sample_message) true) ∅
           (1 # 4)%Q [(3 # 4)%Q]); reflexivity.
Defined.

(** C1.  The selection loop accepts an entry whose description is missing:
    its test is [=== null] alone, and [undefined === null] is false.  On the
    catalog of an entry without description followed by a described one, the
    draw 1/4 picks index 0 and the loop leaves with the entry without
    description; the prompt sent to the model then reads: the description of
    the meme is the following: "undefined". *)
Theorem select_returns_undescribed :
  let e := sample_request [distracted; drake] (JString sample_message) true in
  described drake
  ∧ select [distracted; drake] (random_draws e) = Chosen (Some distracted)
  ∧ Meme.description distracted = JUndefined
  ∧ head (trace (run e ∅).2)
    = Some (ChatCompletion (lit "gpt-3.5-turbo") (prompt distracted))
  ∧ occurs
      (lit "The description of the meme is the following: "
       ++ [DQUOTE] ++ lit "undefined" ++ [DQUOTE] ++ lit ".")
      (prompt distracted).
Proof.
  split; [by eexists |]. split; [vm_compute; reflexivity |].
  split; [reflexivity |]. split; [vm_compute; reflexivity |].
  apply occursb_spec. vm_compute. reflexivity.
Qed.

End PipelineClaims.

(** ** Further properties: the selection loop *)

Section SelectionPaths.

(** X14.  Once the loop has left, further draws change nothing: only the
    draws up to the first accepted entry are used. *)
Theorem select_prefix_stable (memes : list Meme.t) (draws more : list Q)
    (c : option Meme.t) :
  select memes draws = Chosen c → select memes (draws ++ more) = Chosen c.
Proof.
  induction draws as [| r draws IH]; simpl; [discriminate |].
  destruct (description_is_null (index memes _)); [exact IH | done].
Qed.

(** X15.  On a non-empty catalog whose descriptions are all [null] the loop
    never leaves, however many draws it is given. *)
Theorem select_all_null_loops (memes : list Meme.t) (draws : list Q) :
  memes ≠ [] → Forall (λ m, Meme.description m = JNull) memes →
  Forall unit_draw draws →
  select memes draws = StillLooping.
Proof.
  intros Hne Hnull Hdraws. induction Hdraws as [| r draws Hr Hdraws IH]; [done |].
  simpl. destruct (index_random_Some memes r Hne Hr) as (m & Hm & Hin).
  rewrite Hm. simpl. rewrite Forall_forall in Hnull. by rewrite (Hnull m Hin).
Qed.

Lemma random_index_middle_draw (i len : nat) :
  (i < len)%nat → random_index (middle_draw i len) len = Z.of_nat i.
Proof.
  intros Hi. unfold random_index, middle_draw, Qfloor, Qmult, inject_Z. simpl Qnum. simpl Qden.
  rewrite Pos.mul_1_r.
  symmetry. apply (Z.div_unique_pos _ _ _ (Z.of_nat len)); lia.
Qed.

Lemma unit_middle_draw (i len : nat) :
  (i < len)%nat → unit_draw (middle_draw i len).
Proof.
  intros Hi. unfold unit_draw, middle_draw, Qle, Qlt. simpl Qnum. simpl Qden. lia.
Qed.

(** X16.  Every entry whose description is not [null] can be selected: the
    draw in the middle of the [i]-th part of the unit interval picks the
    entry at index [i], and the loop leaves with it at once. *)
Theorem select_reaches (memes : list Meme.t) (i : nat) (m : Meme.t) (more : list Q) :
  memes !! i = Some m → Meme.description m ≠ JNull →
  unit_draw (middle_draw i (length memes))
  ∧ select memes (middle_draw i (length memes) :: more) = Chosen (Some m).
Proof.
  intros Hm Hd. pose proof (lookup_lt_Some _ _ _ Hm) as Hi.
  split; [by apply unit_middle_draw |].
  simpl. rewrite random_index_middle_draw by done.
  unfold index. destruct (Z.ltb_spec (Z.of_nat i) 0); [lia |].
  rewrite Nat2Z.id, Hm. simpl. by destruct (Meme.description m).
Qed.


Lemma select_prefix_stable_witness :
  select [two_buttons; drake] ([(1 # 4)%Q; (3 # 4)%Q] ++ [(1 # 4)%Q])
  = Chosen (Some drake).
Proof.
  apply (select_prefix_stable [two_buttons; drake] [(1 # 4)%Q; (3 # 4)%Q]).
  vm_compute. reflexivity.
Defined.

Lemma select_all_null_loops_witness :
  select [two_buttons] [(1 # 4)%Q; (3 # 4)%Q] = StillLooping.
Proof.
  apply (select_all_null_loops [two_buttons] [(1 # 4)%Q; (3 # 4)%Q]).
  - discriminate.
  - repeat constructor.
  - exact unit_draw_quarters.
Defined.

Lemma select_reaches_witness :
  unit_draw (middle_draw 1 (length [two_buttons; drake]))
  ∧ select [two_buttons; drake]
      (middle_draw 1 (length [two_buttons; drake]) :: []) = Chosen (Some drake).
Proof.
  apply (select_reaches [two_buttons; drake] 1 drake []).
  - reflexivity.
  - discriminate.
Defined.

End SelectionPaths.

(** ** Further properties: the request pipeline *)

Section PipelinePaths.


(** X8.  A POST request when [public/memes.json] does not exist is answered
    500 with an error message; nothing is drawn, called or stored. *)
Theorem missing_catalog_500 (e : env) (db : gmap jsstring MemeDoc) :
  req_method e = lit "POST" → memes_json e = None →
  (run e db).1 = Completed
  ∧ res (run e db).2
    = Some (500%nat, error_body (lit "Unable to retrieve memes."))
  ∧ trace (run e db).2 = []
  ∧ store (run e db).2 = db.
Proof. intros Hpost Hnone. by rewrite run_no_catalog. Qed.

(** X9.  Whatever is answered is answered 405 or 500 with an error message and
    nothing else, or 201 with the three result fields and no error. *)
Theorem response_shape (e : env) (db : gmap jsstring MemeDoc)
    (code : nat) (body : Data) :
  res (run e db).2 = Some (code, body) →
  (run e db).1 = Completed
  ∧ ((code = 405%nat ∨ code = 500%nat)
       ∧ is_Some (error body) ∧ memeUrl body = None
       ∧ captions body = None ∧ invitation body = None
     ∨ code = 201%nat ∧ error body = None ∧ is_Some (memeUrl body)
       ∧ is_Some (captions body) ∧ is_Some (invitation body)).
Proof.
  destruct (run_path e db); simpl; intros [= <- <-] || intros [=];
    (split; [done |]); simpl; eauto 10.
Qed.

(** X10.  The image API is called as soon as the model has answered a non-empty
    text: the parsed result is only looked at afterwards. *)
Theorem render_called_before_validation (e : env) (db : gmap jsstring MemeDoc)
    (memes : list Meme.t) (m : Meme.t) (message : jsstring) :
  req_method e = lit "POST" → memes_json e = Some memes →
  select memes (random_draws e) = Chosen (Some m) →
  completion_content e = JString message → message ≠ [] →
  ∃ rest,
    trace (run e db).2
    = chat_event m
      :: CaptionImage (body_of e m (captions_of message)) :: rest.
Proof.
  intros Hpost Hmemes Hsel Hcontent Hne.
  destruct (generation_failed e message) eqn:Hfail.
  - rewrite (run_generation_failed e db memes m message) by done. simpl. eauto.
  - rewrite (run_success e db memes m message) by done. simpl. eauto.
Qed.






Lemma missing_catalog_500_witness :
  let e :=
    {| req_method := lit "POST"; memes_json := None; random_draws := [];
       completion_content := JUndefined;
       IMGFLIP_USERNAME := JUndefined; IMGFLIP_PASSWORD := JUndefined;
       imgflip_response := sample_response true; uuid := []; now := 0 |} in
  (run e ∅).1 = Completed
  ∧ res (run e ∅).2
    = Some (500%nat, error_body (lit "Unable to retrieve memes."))
  ∧ trace (run e ∅).2 = []
  ∧ store (run e ∅).2 = ∅.
Proof. apply missing_catalog_500; reflexivity. Defined.

Lemma response_shape_witness :
  let e := sample_request [two_buttons; drake] (JString sample_message) false in
  (run e ∅).1 = Completed
  ∧ ((500%nat = 405%nat ∨ 500%nat = 500%nat)
       ∧ is_Some (error unable_to_generate) ∧ memeUrl unable_to_generate = None
       ∧ captions unable_to_generate = None
       ∧ invitation unable_to_generate = None
     ∨ 500%nat = 201%nat ∧ error unable_to_generate = None
       ∧ is_Some (memeUrl unable_to_generate)
       ∧ is_Some (captions unable_to_generate)
       ∧ is_Some (invitation unable_to_generate)).
Proof.
  apply (response_shape
           (sample_request [two_buttons; drake] (JString sample_message) false)
           ∅ 500%nat unable_to_generate).
  vm_compute. reflexivity.
Defined.

Lemma render_called_before_validation_witness :
  let e := sample_request [two_buttons; drake] (JString (lit "No idea")) true in
  ∃ rest,
    trace (run e ∅).2
    = chat_event drake
      :: CaptionImage (body_of e drake (captions_of (lit "No idea"))) :: rest.
Proof.
  apply (render_called_before_validation
           (sample_request [two_buttons; drake] (JString (lit "No idea")) true)
           ∅ [two_buttons; drake] drake (lit "No idea")).
  - reflexivity.
  - reflexivity.
  - vm_compute. reflexivity.
  - reflexivity.
  - discriminate.
Defined.




End PipelinePaths.

(** ** Further properties: the request to imgflip *)

Section FormBody.

Lemma lit_inj (s t : string) : lit s = lit t → s = t.
Proof.
  unfold lit. intros H.
  rewrite <- (string_of_list_ascii_of_string s), <- (string_of_list_ascii_of_string t).
  f_equal. revert H. generalize (list_ascii_of_string s) (list_ascii_of_string t).
  induction l as [| a l IH]; intros [| b k]; simpl; try done.
  intros [= Hab Hlk]. f_equal; [| by apply IH].
  by rewrite <- (ascii_N_embedding a), <- (ascii_N_embedding b), Hab.
Qed.

Lemma nat_to_string_inj (i j : nat) : nat_to_string i = nat_to_string j → i = j.
Proof.
  unfold nat_to_string. intros H%lit_inj.
  assert (Hu : Nat.to_uint i = Nat.to_uint j).
  { apply (f_equal NilEmpty.uint_of_string) in H.
    rewrite !NilEmpty.usu in H. by injection H. }
  by rewrite <- (Unsigned.of_to i), <- (Unsigned.of_to j), Hu.
Qed.

Lemma usv_plain (s : jsstring) : forallb plain s = true → usv s = s.
Proof.
  induction s as [| c s IH]; [done |]. simpl.
  intros [Hc Hs]%andb_true_iff. unfold plain in Hc.
  apply andb_true_iff in Hc as [Hh Hl]. apply negb_true_iff in Hh, Hl.
  rewrite Hh, Hl. simpl. by rewrite IH.
Qed.

Lemma usv_well_formed_upto (n : nat) (s : jsstring) :
  (length s ≤ n)%nat → well_formed (usv s) = true.
Proof.
  revert s. induction n as [| n IH]; intros s Hn.
  - destruct s; [done | simpl in Hn; lia].
  - destruct s as [| c s]; [done |]. simpl in Hn. simpl usv.
    destruct (is_high_surrogate c) eqn:Hh.
    + destruct s as [| d s]; [done |].
      destruct (is_low_surrogate d) eqn:Hl.
      * simpl. rewrite Hh, Hl. simpl. apply IH. simpl in Hn. lia.
      * change (well_formed (REPLACEMENT :: usv (d :: s)))
          with (well_formed (usv (d :: s))).
        apply IH. lia.
    + destruct (is_low_surrogate c) eqn:Hl.
      * change (well_formed (REPLACEMENT :: usv s)) with (well_formed (usv s)).
        apply IH. lia.
      * simpl. rewrite Hh, Hl. simpl. apply IH. lia.
Qed.

Lemma usv_well_formed (s : jsstring) : well_formed (usv s) = true.
Proof. apply (usv_well_formed_upto (length s)). done. Qed.

Lemma usv_fixed_upto (n : nat) (s : jsstring) :
  (length s ≤ n)%nat → well_formed s = true → usv s = s.
Proof.
  revert s. induction n as [| n IH]; intros s Hn.
  - destruct s; [done | simpl in Hn; lia].
  - destruct s as [| c s]; [done |]. simpl in Hn. simpl.
    destruct (is_high_surrogate c) eqn:Hh.
    + destruct s as [| d s]; [done |].
      intros [Hl Hs]%andb_true_iff. rewrite Hl.
      rewrite IH; [done | simpl in Hn; lia | done].
    + intros [Hl Hs]%andb_true_iff. apply negb_true_iff in Hl. rewrite Hl.
      rewrite IH; [done | lia | done].
Qed.

Lemma lit_plain (s : string) : forallb plain (lit s) = true.
Proof.
  unfold lit. induction (list_ascii_of_string s) as [| a l IH]; [done |].
  simpl. rewrite IH, andb_true_r.
  pose proof (N_ascii_bounded a) as Ha. unfold plain, is_high_surrogate, is_low_surrogate.
  rewrite andb_true_iff, !negb_true_iff, !andb_false_iff, !N.leb_gt. lia.
Qed.

Lemma forallb_app_plain (a b : jsstring) :
  forallb plain a = true → forallb plain b = true → forallb plain (a ++ b) = true.
Proof. intros Ha Hb. rewrite forallb_app. by rewrite Ha, Hb. Qed.

(** X17.  The form body holds the captions in order after its three first
    fields: caption [i] under the name [boxes[i][text]], its text converted
    to a [USVString] (a missing text as the string [undefined], a surrogate
    without its pair as U+FFFD, a text without such surrogates as it is).
    The names of the caption fields are pairwise distinct, and no name or
    value of the body holds a surrogate without its pair. *)
Theorem caption_fields_in_order (e : env) (m : Meme.t) (captions : list Caption) :
  length (body_of e m captions) = (3 + length captions)%nat
  ∧ (∀ i c, captions !! i = Some c →
       body_of e m captions !! (3 + i)%nat
       = Some (lit "boxes[" ++ nat_to_string i ++ lit "][text]",
               usv (match text c with
                    | JString s => s
                    | JUndefined => lit "undefined"
                    | JNull => lit "null"
                    end)))
  ∧ (∀ i j,
       lit "boxes[" ++ nat_to_string i ++ lit "][text]"
       = lit "boxes[" ++ nat_to_string j ++ lit "][text]" →
       i = j)
  ∧ Forall (λ field, well_formed field.1 = true ∧ well_formed field.2 = true)
      (body_of e m captions)
  ∧ (∀ t, well_formed t = true → usv t = t).
Proof.
  unfold body_of. split; [| split; [| split; [| split]]].
  - rewrite length_app, length_imap. done.
  - intros i c Hc. rewrite lookup_app_r by (simpl; lia).
    simpl length. replace (3 + i - 3)%nat with i by lia.
    rewrite list_lookup_imap, Hc. unfold body_append.
    cbn [fmap option_fmap option_map]. f_equal. f_equal.
    apply usv_plain. unfold nat_to_string.
    by rewrite !forallb_app, !lit_plain.
  - intros i j H. apply app_inv_head in H. apply app_inv_tail in H.
    by apply nat_to_string_inj.
  - apply Forall_forall. intros field Hfield.
    assert (Happ : ∃ name value, field = body_append name value).
    { apply elem_of_app in Hfield as [Hfield | Hfield].
      - repeat (apply elem_of_cons in Hfield as [-> | Hfield]; [eauto |]).
        by apply elem_of_nil in Hfield.
      - apply elem_of_lookup_imap_1 in Hfield as (i & c & -> & _). eauto. }
    destruct Happ as (name & value & ->). simpl.
    by rewrite !usv_well_formed.
  - intros t. apply (usv_fixed_upto (length t)). done.
Qed.

End FormBody.

(** ** Further properties: [split] and the parsed texts *)

Lemma drop_separator (sep s r : jsstring) (c : code_unit) :
  sep ≠ [] → c :: s = sep ++ r →
  (length sep - 1 ≤ length s)%nat ∧ drop (length sep - 1) s = r.
Proof.
  intros Hsep H. destruct sep as [| x sep']; [done |].
  simpl in H. injection H as _ ->.
  replace (length (x :: sep') - 1)%nat with (length sep') by (simpl; lia).
  split; [rewrite length_app; lia | apply drop_app_length].
Qed.

Section Split.

Context (sep : jsstring) (Hsep : sep ≠ []).

Lemma split_go_pass (k : nat) (s cur : jsstring) :
  (k ≤ length s)%nat → split_go sep s cur k = split_go sep (drop k s) cur 0.
Proof.
  revert s. induction k as [| k IH]; intros s Hk; [done |].
  destruct s as [| c s]; [simpl in Hk; lia |].
  simpl. apply IH. simpl in Hk. lia.
Qed.

Lemma split_go_hit (c : code_unit) (s r cur : jsstring) :
  strip_prefix sep (c :: s) = Some r →
  split_go sep (c :: s) cur 0 = rev cur :: split_go sep r [] 0.
Proof using Hsep.
  intros H. simpl split_go. rewrite H. f_equal.
  apply strip_prefix_spec in H.
  destruct (drop_separator sep s r c Hsep H) as [Hlen Hdrop].
  by rewrite split_go_pass, Hdrop.
Qed.

Lemma strip_prefix_shorter (s r : jsstring) :
  strip_prefix sep s = Some r → (length r < length s)%nat.
Proof using Hsep.
  intros ->%strip_prefix_spec. rewrite length_app.
  destruct sep; [done | simpl; lia].
Qed.

Lemma split_go_cons (s cur : jsstring) :
  ∃ x l, split_go sep s cur 0 = x :: l.
Proof.
  revert cur. induction s as [| c s IH]; intros cur; simpl; [eauto |].
  destruct (strip_prefix sep (c :: s)); [eauto | apply IH].
Qed.

Lemma join_split_go (n : nat) (s cur : jsstring) :
  (length s ≤ n)%nat → join sep (split_go sep s cur 0) = rev cur ++ s.
Proof using Hsep.
  revert s cur. induction n as [| n IH]; intros s cur Hn.
  - destruct s; [| simpl in Hn; lia]. simpl. by rewrite app_nil_r.
  - destruct s as [| c s]; [simpl; by rewrite app_nil_r |].
    destruct (strip_prefix sep (c :: s)) as [r |] eqn:E.
    + rewrite (split_go_hit _ _ _ _ E).
      pose proof (strip_prefix_shorter _ _ E) as Hr.
      destruct (split_go_cons r []) as (x & l & Hx).
      simpl join. rewrite Hx. rewrite <- Hx.
      rewrite IH by (simpl in *; lia). simpl.
      apply strip_prefix_spec in E. by rewrite E.
    + rewrite split_go_miss by done.
      rewrite IH by (simpl in Hn; lia). simpl. by rewrite <- app_assoc.
Qed.

Lemma piece_clean_free (cur s : jsstring) :
  piece_clean sep cur s → ¬ occurs sep (rev cur).
Proof using Hsep.
  intros Hclean (pre & post & H).
  assert (Hn : strip_prefix sep ((sep ++ post) ++ s) = None).
  { apply (Hclean pre); [done |]. by destruct sep. }
  rewrite <- app_assoc in Hn.
  assert (Hs : strip_prefix sep (sep ++ post ++ s) = Some (post ++ s))
    by (by apply strip_prefix_spec).
  congruence.
Qed.

Lemma split_go_pieces (n : nat) (s cur : jsstring) :
  (length s ≤ n)%nat → piece_clean sep cur s →
  Forall (λ piece, ¬ occurs sep piece) (split_go sep s cur 0).
Proof using Hsep.
  revert s cur. induction n as [| n IH]; intros s cur Hn Hclean.
  - destruct s; [| simpl in Hn; lia]. simpl.
    constructor; [by apply (piece_clean_free cur []) | constructor].
  - destruct s as [| c s].
    { simpl. constructor; [by apply (piece_clean_free cur []) | constructor]. }
    destruct (strip_prefix sep (c :: s)) as [r |] eqn:E.
    + rewrite (split_go_hit _ _ _ _ E).
      pose proof (strip_prefix_shorter _ _ E) as Hr.
      constructor; [by apply (piece_clean_free cur (c :: s)) |].
      apply IH; [simpl in *; lia |].
      intros a b Hab Hb. simpl in Hab. symmetry in Hab.
      apply app_eq_nil in Hab as [_ ->]. done.
    + rewrite split_go_miss by done.
      apply IH; [simpl in Hn; lia |].
      intros a b Hab Hb. simpl in Hab.
      destruct b as [| y b _] using rev_ind; [done |].
      rewrite app_assoc in Hab. apply app_inj_tail in Hab as [Hab ->].
      rewrite <- app_assoc. simpl.
      destruct b as [| z b]; [exact E |].
      by apply (Hclean a).
Qed.

End Split.

Lemma split_free (sep s : jsstring) :
  sep ≠ [] → Forall (λ piece, ¬ occurs sep piece) (split sep s).
Proof.
  intros Hsep. apply (split_go_pieces sep Hsep (length s)); [done |].
  intros a b Hab Hb. simpl in Hab. symmetry in Hab.
  apply app_eq_nil in Hab as [_ ->]. done.
Qed.

(** X18.  [split] with a non-empty separator: there is at least one piece, no
    piece holds the separator, and joining the pieces with the separator
    gives the string back. *)
Theorem split_round_trip (sep s : jsstring) :
  sep ≠ [] →
  split sep s ≠ []
  ∧ Forall (λ piece, ¬ occurs sep piece) (split sep s)
  ∧ join sep (split sep s) = s.
Proof.
  intros Hsep. split; [| split].
  - unfold split. by destruct (split_go_cons sep s []) as (x & l & ->).
  - by apply split_free.
  - unfold split. by rewrite (join_split_go sep Hsep (length s)).
Qed.

Lemma split_round_trip_witness :
  split (lit ": ") (lit "Caption[1]: A: B") ≠ []
  ∧ Forall (λ piece, ¬ occurs (lit ": ") piece)
      (split (lit ": ") (lit "Caption[1]: A: B"))
  ∧ join (lit ": ") (split (lit ": ") (lit "Caption[1]: A: B"))
    = lit "Caption[1]: A: B".
Proof. apply split_round_trip. discriminate. Defined.

Lemma separator_nonempty : lit ": " ≠ [].
Proof. discriminate. Qed.

Lemma second_piece_free (s t : jsstring) :
  of_option (split (lit ": ") s !! 1%nat) = JString t → ¬ occurs (lit ": ") t.
Proof.
  destruct (split (lit ": ") s !! 1%nat) as [piece |] eqn:E; [| discriminate].
  intros [= <-].
  pose proof (split_free (lit ": ") s separator_nonempty) as Hall.
  rewrite Forall_forall in Hall. apply Hall.
  apply list_elem_of_lookup. eauto.
Qed.

Lemma colon_free_separator_free (t : jsstring) :
  COLON ∉ t → ¬ occurs (lit ": ") t.
Proof.
  intros Hno (pre & post & ->). apply Hno.
  apply elem_of_app. right. by left.
Qed.

Lemma last_resort_colon_free (message : jsstring) :
  COLON ∉ substring (lastIndexOf COLON message + 1) message.
Proof.
  destruct (decide (COLON ∈ message)) as [Hin | Hno].
  - destruct (lastIndexOf_found COLON message Hin) as (pre & post & E & Hpost & Hidx).
    rewrite Hidx, E. by rewrite substring_after.
  - by rewrite lastIndexOf_missing.
Qed.

(** X19.  The parsed texts never hold [": "]: a caption text is a piece of a split
    on it, and so is the invitation, unless it is what follows the last
    colon of the text. *)
Theorem parsed_texts_separator_free (message : jsstring) :
  (∀ c t, c ∈ captions_of message → text c = JString t →
          ¬ occurs (lit ": ") t)
  ∧ (∀ t, invitation_of message = JString t → ¬ occurs (lit ": ") t)
  ∧ (∀ c, c ∈ captions_of message → text c ≠ JNull)
  ∧ invitation_of message ≠ JNull.
Proof.
  split; [| split; [| split]].
  - intros c t Hc Ht. unfold captions_of in Hc.
    apply list_elem_of_fmap in Hc as (caption & -> & _).
    by apply (second_piece_free caption).
  - intros t. unfold invitation_of.
    destruct (length (invitationMatch message) =? 0)%nat.
    + intros [= <-]. apply colon_free_separator_free, last_resort_colon_free.
    + apply second_piece_free.
  - intros c Hc. unfold captions_of in Hc.
    apply list_elem_of_fmap in Hc as (caption & -> & _). simpl.
    unfold captionText. by destruct (split _ caption !! 1%nat).
  - unfold invitation_of.
    destruct (length (invitationMatch message) =? 0)%nat; [done |].
    by destruct (split _ _ !! 1%nat).
Qed.

(** X20.  The invitation on the line of the first marker that holds [": "]: only
    what stands before it is kept. *)
Theorem invitation_first_piece (pre a b post : jsstring) :
  let message := pre ++ lit "Invitation: " ++ (a ++ lit ": " ++ b) ++ post in
  (∀ i, (i < length pre)%nat → ¬ begins_at invitation_spaced message i) →
  one_line (a ++ lit ": " ++ b) → line_end post → ¬ occurs (lit ": ") a →
  invitation_of message = JString a.
Proof.
  intros message Hpre Hg Hpost Hsep.
  assert (Hsplit : split (lit ": ") (lit "Invitation: " ++ a ++ lit ": " ++ b) !! 1%nat
                   = Some a).
  { unfold split.
    change (split_go (lit ": ") (lit "Invitation: " ++ a ++ lit ": " ++ b) [] 0)
      with (rev (rev (lit "Invitation"))
            :: split_go (lit ": ") (a ++ lit ": " ++ b) [] 0).
    by rewrite split_go_first. }
  unfold message in *. clear message Hsep. revert Hsplit Hg Hpre.
  generalize (a ++ lit ": " ++ b). intros g Hsplit Hg Hpre.
  assert (Hm : exec invitation_spaced (pre ++ lit "Invitation: " ++ g ++ post)
               = Some (RMatch (lit "Invitation: " ++ g) g post)).
  { rewrite (exec_skip _ (length pre)); [| exact Hpre |].
    - rewrite drop_app_length. apply exec_hit. by apply match_at_line.
    - rewrite length_app. lia. }
  unfold invitation_of, invitationMatch, match_first. rewrite Hm.
  simpl. simpl in Hsplit. by rewrite Hsplit.
Qed.

Lemma invitation_first_piece_witness :
  invitation_of
    ((line1 ++ [LF]) ++ lit "Invitation: "
     ++ (lit "Gala night" ++ lit ": " ++ lit "be my plus one?") ++ [])
  = JString (lit "Gala night").
Proof.
  apply (invitation_first_piece (line1 ++ [LF]) (lit "Gala night")
           (lit "be my plus one?") []).
  - intros i Hi H. apply begins_at_elem in H; [| reflexivity].
    vm_compute in H.
    apply elem_of_cons in H as [-> | H]; [simpl in Hi; lia |].
    by apply elem_of_nil in H.
  - unfold one_line. apply Forall_forall. intros c Hc.
    vm_compute in Hc.
    repeat (apply elem_of_cons in Hc as [-> | Hc]; [reflexivity |]).
    by apply elem_of_nil in Hc.
  - by left.
  - apply not_occurs_spec. vm_compute. reflexivity.
Defined.

(** ** Further properties: the caption patterns *)

Section Patterns.

Lemma match_atoms_cons (a : atom) (p : pattern) (c : code_unit) (s : jsstring) :
  match_atoms (a :: p) (c :: s)
  = if atom_accepts a c
    then match match_atoms p s with
         | Some (m, r) => Some (c :: m, r)
         | None => None
         end
    else None.
Proof. reflexivity. Qed.

Lemma match_atoms_after_literal (w : jsstring) (q : pattern) (t : jsstring) :
  match_atoms (map Chr w ++ q) (w ++ t)
  = match match_atoms q t with
    | Some (m, r) => Some (w ++ m, r)
    | None => None
    end.
Proof.
  induction w as [| x w IH]; simpl.
  - by destruct (match_atoms q t) as [[m r] |].
  - rewrite N.eqb_refl, IH. by destruct (match_atoms q t) as [[m r] |].
Qed.

Lemma digit_range (c : code_unit) :
  is_digit c = true ↔ (48 ≤ c ≤ 57)%N.
Proof.
  unfold is_digit. rewrite andb_true_iff, !N.leb_le. done.
Qed.

Lemma digit_not_space (c : code_unit) :
  is_digit c = true → is_white_space c = false.
Proof.
  intros Hc%digit_range. unfold is_white_space.
  rewrite !orb_false_iff, andb_false_iff, !N.eqb_neq, N.leb_gt.
  repeat split; lia || (left; lia).
Qed.

Lemma digit_not_char (c x : code_unit) :
  is_digit c = true → is_digit x = false → (c =? x)%N = false.
Proof. intros Hc Hx. apply N.eqb_neq. intros ->. congruence. Qed.

(** What stands after the word [Caption] decides the pattern. *)
Lemma caption_patterns_after_word (t : jsstring) :
  (is_Some (match_atoms ([Chr 91%N; Digit] ++ chars "]:" ++ [Space]) t) →
   ∃ t', t = 91%N :: t')
  ∧ (is_Some (match_atoms ([Space; Digit] ++ chars ":" ++ [Space]) t) →
     ∃ c t', t = c :: t' ∧ is_white_space c = true)
  ∧ (is_Some (match_atoms ([Digit] ++ chars ":" ++ [Space]) t) →
     ∃ c t', t = c :: t' ∧ is_digit c = true).
Proof.
  destruct t as [| c t]; [by repeat split; intros [? [=]] |].
  repeat split; simpl app; rewrite match_atoms_cons; simpl atom_accepts.
  - destruct (N.eqb_spec c 91) as [-> |]; [eauto | by intros [? [=]]].
  - destruct (is_white_space c) eqn:E; [eauto | by intros [? [=]]].
  - destruct (is_digit c) eqn:E; [eauto | by intros [? [=]]].
Qed.

End Patterns.

Lemma caption_bracketed_split :
  caption_bracketed
  = map Chr (lit "Caption") ++ [Chr 91%N; Digit] ++ chars "]:" ++ [Space].
Proof. reflexivity. Qed.

Lemma caption_spaced_split :
  caption_spaced
  = map Chr (lit "Caption") ++ [Space; Digit] ++ chars ":" ++ [Space].
Proof. reflexivity. Qed.

Lemma caption_unspaced_split :
  caption_unspaced
  = map Chr (lit "Caption") ++ [Digit] ++ chars ":" ++ [Space].
Proof. reflexivity. Qed.

(** The character after the word [Caption] where a caption pattern
    matches. *)
Lemma caption_pattern_head (s : jsstring) :
  (is_Some (match_atoms caption_bracketed s) →
   ∃ t, s = lit "Caption" ++ 91%N :: t)
  ∧ (is_Some (match_atoms caption_spaced s) →
     ∃ c t, s = lit "Caption" ++ c :: t ∧ is_white_space c = true)
  ∧ (is_Some (match_atoms caption_unspaced s) →
     ∃ c t, s = lit "Caption" ++ c :: t ∧ is_digit c = true).
Proof.
  rewrite caption_bracketed_split, caption_spaced_split, caption_unspaced_split.
  repeat split; intros H;
    destruct (match_atoms_literal _ _ _ H) as [t ->];
    rewrite match_atoms_after_literal in H.
  - destruct (proj1 (caption_patterns_after_word t)) as [t' ->]; [| eauto].
    destruct (match_atoms _ t) as [[m r] |]; [eauto | by destruct H].
  - destruct (proj1 (proj2 (caption_patterns_after_word t))) as (c & t' & -> & Hc);
      [| eauto].
    destruct (match_atoms _ t) as [[m r] |]; [eauto | by destruct H].
  - destruct (proj2 (proj2 (caption_patterns_after_word t))) as (c & t' & -> & Hc);
      [| eauto].
    destruct (match_atoms _ t) as [[m r] |]; [eauto | by destruct H].
Qed.

(** X21.  At one position at most one of the three caption patterns
    matches. *)
Theorem caption_patterns_exclusive (s : jsstring) :
  (is_Some (match_atoms caption_bracketed s) →
   match_atoms caption_spaced s = None ∧ match_atoms caption_unspaced s = None)
  ∧ (is_Some (match_atoms caption_spaced s) →
     match_atoms caption_unspaced s = None).
Proof.
  destruct (caption_pattern_head s) as (Hb & Hs & Hu).
  split.
  - intros (t & ->)%Hb. split.
    + destruct (match_atoms caption_spaced _) eqn:E; [| done].
      destruct Hs as (c & t' & H & Hc); [eauto |].
      apply app_inv_head in H. injection H as <- _. discriminate Hc.
    + destruct (match_atoms caption_unspaced _) eqn:E; [| done].
      destruct Hu as (c & t' & H & Hc); [eauto |].
      apply app_inv_head in H. injection H as <- _. discriminate Hc.
  - intros (c & t & -> & Hc)%Hs.
    destruct (match_atoms caption_unspaced _) eqn:E; [| done].
    destruct Hu as (c' & t' & H & Hc'); [eauto |].
    apply app_inv_head in H. injection H as <- _.
    apply digit_not_space in Hc'. congruence.
Qed.

(** After the number, each pattern wants its closing character: a second
    digit is none. *)
Lemma second_digit_rejected (q : pattern) (x d1 d2 : code_unit) (rest : jsstring) :
  is_digit d1 = true → is_digit d2 = true → is_digit x = false →
  match_atoms (Digit :: Chr x :: q) (d1 :: d2 :: rest) = None.
Proof.
  intros H1 H2 Hx. rewrite !match_atoms_cons. simpl atom_accepts.
  rewrite H1. by rewrite (digit_not_char d2 x).
Qed.

Lemma two_digit_number_not_matched (w d1 d2 : code_unit) (rest : jsstring) :
  is_digit d1 = true → is_digit d2 = true → is_white_space w = true →
  match_atoms caption_bracketed (lit "Caption[" ++ d1 :: d2 :: rest) = None
  ∧ match_atoms caption_spaced (lit "Caption" ++ w :: d1 :: d2 :: rest) = None
  ∧ match_atoms caption_unspaced (lit "Caption" ++ d1 :: d2 :: rest) = None.
Proof.
  intros H1 H2 Hw. repeat split.
  - change caption_bracketed
      with (map Chr (lit "Caption[") ++ Digit :: Chr 93%N :: [Chr 58%N; Space]).
    rewrite match_atoms_after_literal.
    by rewrite second_digit_rejected.
  - rewrite caption_spaced_split, match_atoms_after_literal.
    simpl app. rewrite match_atoms_cons. simpl atom_accepts. rewrite Hw.
    change (chars ":") with [Chr 58%N]. simpl app.
    by rewrite second_digit_rejected.
  - rewrite caption_unspaced_split, match_atoms_after_literal.
    change (chars ":") with [Chr 58%N]. simpl app.
    by rewrite second_digit_rejected.
Qed.

Lemma scan_all_suffixes (p : pattern) (s : jsstring) (k : nat) :
  Forall (λ w, ∃ suf m, suf `suffix_of` s ∧ match_at p suf = Some m ∧ w = whole m)
    (scan_all p s k).
Proof.
  revert k. induction s as [| c s IH]; intros k.
  - simpl. destruct k; [| constructor].
    destruct (match_at p []) as [m |] eqn:E; constructor; [| constructor].
    exists [], m. done.
  - assert (Hrest : ∀ k', Forall (λ w, ∃ suf m, suf `suffix_of` (c :: s)
                                   ∧ match_at p suf = Some m ∧ w = whole m)
                            (scan_all p s k')).
    { intros k'. eapply Forall_impl; [apply IH |].
      intros w (suf & m & Hsuf & Hm & ->). exists suf, m.
      split; [by apply suffix_cons_r | done]. }
    simpl. destruct k as [| k]; [| apply Hrest].
    destruct (match_at p (c :: s)) as [m |] eqn:E; [| apply Hrest].
    constructor; [| apply Hrest]. by exists (c :: s), m.
Qed.

Lemma match_atoms_literal_consumed (w : jsstring) (q : pattern) (s m r : jsstring) :
  match_atoms (map Chr w ++ q) s = Some (m, r) → ∃ m', m = w ++ m'.
Proof.
  revert s m. induction w as [| x w IH]; intros s m; simpl; [eauto |].
  destruct s as [| c s]; [discriminate |].
  destruct (N.eqb_spec c x) as [-> |]; [| discriminate].
  destruct (match_atoms (map Chr w ++ q) s) as [[m0 r0] |] eqn:E; [| discriminate].
  intros [= <- <-]. destruct (IH _ _ E) as [m' ->]. by exists m'.
Qed.

(** X23.  Every matched caption line is taken from the text, starts with the
    word [Caption], and gives one caption. *)
Theorem caption_matches_from_text (message : jsstring) :
  Forall (λ w, occurs w message ∧ ∃ t, w = lit "Caption" ++ t)
    (captionMatches message)
  ∧ length (captions_of message) = length (captionMatches message).
Proof.
  split; [| unfold captions_of; apply length_map].
  assert (Hp : ∀ q, Forall (λ w, occurs w message ∧ ∃ t, w = lit "Caption" ++ t)
                      (scan_all (map Chr (lit "Caption") ++ q) message 0)).
  { intros q. eapply Forall_impl; [apply scan_all_suffixes |].
    intros w (suf & m & [pre ->] & Hm & ->). split.
    - exists pre, (after m). by rewrite <- (match_at_app _ _ _ Hm).
    - unfold match_at in Hm.
      destruct (match_atoms _ suf) as [[x r] |] eqn:E; [| discriminate].
      destruct (dot_star r) as [g r']. injection Hm as <-. simpl.
      destruct (match_atoms_literal_consumed _ _ _ _ _ E) as [m' ->].
      exists (m' ++ g). by rewrite <- app_assoc. }
  unfold captionMatches, match_global.
  rewrite caption_bracketed_split, caption_spaced_split, caption_unspaced_split.
  destruct (scan_all _ message 0) as [| w1 l1] eqn:E1; [| rewrite <- E1; apply Hp].
  destruct (scan_all (_ ++ [Space; Digit] ++ _) message 0) as [| w2 l2] eqn:E2;
    [| rewrite <- E2; apply Hp].
  destruct (scan_all (_ ++ [Digit] ++ _) message 0) as [| w3 l3] eqn:E3;
    [constructor | rewrite <- E3; apply Hp].
Qed.

Lemma word_only_at_start (d1 d2 : code_unit) (g t : jsstring) (i : nat) :
  is_digit d1 = true → is_digit d2 = true → ¬ occurs (lit "Caption") g →
  drop i (lit "Caption[" ++ d1 :: d2 :: lit "]: " ++ g) = lit "Caption" ++ t →
  i = 0%nat.
Proof.
  intros H1 H2 Hg H.
  do 13 (destruct i as [| i]; [try done; by simplify_eq/= |]).
  exfalso. apply Hg. exists (take i g), t.
  change (drop i g = lit "Caption" ++ t) in H.
  by rewrite <- H, take_drop.
Qed.

(** X22.  A caption numbered with two digits is matched by no pattern, in any
    of the three shapes; a text that holds nothing else than such a bracketed
    line gives no caption. *)
Theorem two_digit_caption_lost (w d1 d2 : code_unit) (rest g : jsstring) :
  is_digit d1 = true → is_digit d2 = true → is_white_space w = true →
  ¬ occurs (lit "Caption") g →
  match_atoms caption_bracketed (lit "Caption[" ++ d1 :: d2 :: rest) = None
  ∧ match_atoms caption_spaced (lit "Caption" ++ w :: d1 :: d2 :: rest) = None
  ∧ match_atoms caption_unspaced (lit "Caption" ++ d1 :: d2 :: rest) = None
  ∧ captions_of (lit "Caption[" ++ d1 :: d2 :: lit "]: " ++ g) = [].
Proof.
  intros H1 H2 Hw Hg.
  destruct (two_digit_number_not_matched w d1 d2 rest H1 H2 Hw) as (Hb & Hs & Hu).
  split; [exact Hb |]. split; [exact Hs |]. split; [exact Hu |].
  set (message := lit "Caption[" ++ d1 :: d2 :: lit "]: " ++ g).
  destruct (two_digit_number_not_matched w d1 d2 (lit "]: " ++ g) H1 H2 Hw)
    as (Hb0 & _ & _).
  assert (Hstart : ∀ p i, begins_at p message i →
            (is_Some (match_atoms p (drop i message)) →
             ∃ t, drop i message = lit "Caption" ++ t) →
            i = 0%nat).
  { intros p i Hbeg Hword. destruct (Hword Hbeg) as [t Ht].
    by apply (word_only_at_start d1 d2 g t i). }
  assert (Hnone : ∀ p,
            (∀ s, is_Some (match_atoms p s) → ∃ t, s = lit "Caption" ++ t) →
            match_atoms p message = None → match_at p [] = None →
            scan_all p message 0 = []).
  { intros p Hword H0 Hnil. apply scan_all_none; [| exact Hnil].
    intros i _ Hbeg.
    assert (i = 0%nat) as -> by (apply (Hstart p i Hbeg); apply Hword).
    change (is_Some (match_atoms p message)) in Hbeg. rewrite H0 in Hbeg.
    by destruct Hbeg. }
  unfold captions_of, captionMatches, match_global. fold message.
  rewrite (Hnone caption_bracketed), (Hnone caption_spaced),
    (Hnone caption_unspaced); try done.
  - intros s (c & t & -> & _)%(proj2 (proj2 (caption_pattern_head s))). eauto.
  - intros s (c & t & -> & _)%(proj1 (proj2 (caption_pattern_head s))). eauto.
  - intros s (t & ->)%(proj1 (caption_pattern_head s)). eauto.
Qed.

Lemma two_digit_caption_lost_witness :
  match_atoms caption_bracketed
    (lit "Caption[" ++ 49%N :: 48%N :: lit "]: Tenth box") = None
  ∧ match_atoms caption_spaced
      (lit "Caption" ++ 32%N :: 49%N :: 48%N :: lit "]: Tenth box") = None
  ∧ match_atoms caption_unspaced
      (lit "Caption" ++ 49%N :: 48%N :: lit "]: Tenth box") = None
  ∧ captions_of (lit "Caption[" ++ 49%N :: 48%N :: lit "]: " ++ lit "Tenth box")
    = [].
Proof.
  apply (two_digit_caption_lost 32%N 49%N 48%N (lit "]: Tenth box")
           (lit "Tenth box")).
  - reflexivity.
  - reflexivity.
  - reflexivity.
  - apply not_occurs_spec. vm_compute. reflexivity.
Defined.

